(** * pytest-split: the partitioning core ([pytest_split/algorithms.py])

    A shallow embedding of the duration estimator, the grouper and the two
    partition strategies, followed by the properties the specification
    states about them.

    Modelling choices.
    - Python floats are modelled by exact rationals [Q]; equalities between
      computed durations are stated with [Qeq] ([==]).
    - [splits] is a Python [int], modelled by [Z]; [range(splits)] is empty
      for a non-positive [splits].
    - Python exceptions are the non-[Ok] constructors of [result].
    - A test item is opaque to the code except for its [nodeid].
    - [heapq] is modelled by its contract: [heappop] removes and returns the
      least entry for Python's tuple order. *)

From Stdlib Require Import QArith Lqa Ascii.
From stdpp Require Import base list strings gmap sorting.

Close Scope Q_scope.
Open Scope nat_scope.

(** ** Exceptions *)

Inductive result (A : Type) : Type :=
| Ok (a : A)
| IndexError
| ZeroDivisionError
| ValueError.
Arguments Ok {A} a.
Arguments IndexError {A}.
Arguments ZeroDivisionError {A}.
Arguments ValueError {A}.

Definition result_bind {A B} (f : A → result B) (m : result A) : result B :=
  match m with
  | Ok a => f a
  | IndexError => IndexError
  | ZeroDivisionError => ZeroDivisionError
  | ValueError => ValueError
  end.

#[global] Instance result_ret : MRet result := @Ok.
#[global] Instance result_mbind : MBind result := @result_bind.

(** A [for] loop whose body may raise: the state is threaded left to right
    and the first exception ends the loop. *)
Fixpoint for_each {S A} (body : S → A → result S) (st : S) (l : list A) : result S :=
  match l with
  | [] => Ok st
  | x :: l' => st' ← body st x; for_each body st' l'
  end.

(** A list comprehension whose element expression may raise. *)
Fixpoint comprehension {A B} (f : A → result B) (l : list A) : result (list B) :=
  match l with
  | [] => Ok []
  | x :: l' => y ← f x; ys ← comprehension f l'; Ok (y :: ys)
  end.

(** [l[i]] and [l[i] = x] on a Python list, for [i >= 0]. *)
Definition getitem {A} (l : list A) (i : nat) : result A :=
  match l !! i with
  | Some x => Ok x
  | None => IndexError
  end.

Definition setitem {A} (l : list A) (i : nat) (x : A) : result (list A) :=
  match l !! i with
  | Some _ => Ok (<[i:=x]> l)
  | None => IndexError
  end.

(** [l[i].append(x)] *)
Definition append_at {A} (l : list (list A)) (i : nat) (x : A) : result (list (list A)) :=
  xs ← getitem l i; setitem l i (xs ++ [x]).

(** [range(n)] for a Python int [n]. *)
Definition range (n : Z) : list nat := seq 0 (Z.to_nat n).

(** ** Numbers *)

(** [sum(xs)]: a left fold of [+] from [0]. *)
Definition py_sum (xs : list Q) : Q := foldl Qplus 0%Q xs.

(** [a / b] with [b] an int. *)
Definition true_div (a : Q) (b : Z) : result Q :=
  if decide (b = 0%Z) then ZeroDivisionError else Ok (a / inject_Z b)%Q.

Definition Qlt_bool (a b : Q) : bool := negb (Qle_bool b a).

(** ** Data model *)

Record Item := mkItem { nodeid : string }.

Record InputTestGroup := mkInputTestGroup {
  tests : list Item;
  duration : Q
}.

Record OutputTestGroup := mkOutputTestGroup {
  selected : list Item;
  deselected : list Item;
  o_duration : Q
}.

Definition _flatten (test_groups : list InputTestGroup) : list Item :=
  concat (tests <$> test_groups).

(** ** [duration_based_chunks] *)

(** The three per-bucket lists and the bucket pointer of the loop. *)
Record chunk_state := mkChunkState {
  cs_selected : list (list InputTestGroup);
  cs_deselected : list (list InputTestGroup);
  cs_duration : list Q;
  cs_group_idx : nat
}.

(** [for i in range(splits): if i != group_idx: deselected[i].append(group)] *)
Definition deselect_others (splits : Z) (group_idx : nat)
    (deselected : list (list InputTestGroup)) (group : InputTestGroup)
    : result (list (list InputTestGroup)) :=
  for_each (λ des i, if decide (i ≠ group_idx) then append_at des i group else Ok des)
           deselected (range splits).

Definition chunk_init (splits : Z) : chunk_state :=
  {| cs_selected := (λ _, []) <$> range splits;
     cs_deselected := (λ _, []) <$> range splits;
     cs_duration := (λ _, 0%Q) <$> range splits;
     cs_group_idx := 0 |}.

(** The body of the loop over the input groups. *)
Definition chunk_step (splits : Z) (time_per_group : Q)
    (st : chunk_state) (group : InputTestGroup) : result chunk_state :=
  d ← getitem (cs_duration st) (cs_group_idx st);
  let group_idx :=
    if Qle_bool time_per_group d then S (cs_group_idx st) else cs_group_idx st in
  sel ← append_at (cs_selected st) group_idx group;
  des ← deselect_others splits group_idx (cs_deselected st) group;
  d' ← getitem (cs_duration st) group_idx;
  dur ← setitem (cs_duration st) group_idx (d' + duration group)%Q;
  Ok {| cs_selected := sel; cs_deselected := des;
        cs_duration := dur; cs_group_idx := group_idx |}.

Definition chunk_loop (splits : Z) (input_test_groups : list InputTestGroup)
    : result chunk_state :=
  time_per_group ← true_div (py_sum (duration <$> input_test_groups)) splits;
  for_each (chunk_step splits time_per_group) (chunk_init splits) input_test_groups.

Definition chunk_output (st : chunk_state) (i : nat) : result OutputTestGroup :=
  s ← getitem (cs_selected st) i;
  d ← getitem (cs_deselected st) i;
  t ← getitem (cs_duration st) i;
  Ok {| selected := _flatten s; deselected := _flatten d; o_duration := t |}.

Definition duration_based_chunks (splits : Z) (input_test_groups : list InputTestGroup)
    : result (list OutputTestGroup) :=
  st ← chunk_loop splits input_test_groups;
  comprehension (chunk_output st) (range splits).

(** ** [least_duration] *)

(** [sorted(xs, key=key, reverse=reverse)].  Python's sort is stable, also
    with [reverse=True]: elements with equal keys keep their input order.
    [before y x] says that [y], met later in the input than [x], has to
    come out strictly before it. *)
Section sort_by.
Context {A : Type} (before : A → A → bool).

Fixpoint insert_by (x : A) (l : list A) : list A :=
    match l with
    | [] => [x]
    | y :: l' => if before y x then y :: insert_by x l' else x :: y :: l'
    end.

Definition sort_by (l : list A) : list A := foldr insert_by [] l.
End sort_by.

Definition goes_before {A K} (key_lt : K → K → bool) (key : A → K) (reverse : bool)
    (y x : A) : bool :=
  if reverse then key_lt (key x) (key y) else key_lt (key y) (key x).

Definition sorted {A K} (key_lt : K → K → bool) (key : A → K) (reverse : bool)
    (l : list A) : list A :=
  sort_by (goes_before key_lt key reverse) l.

(** [enumerate(xs)] *)
Definition enumerate {A} (xs : list A) : list (nat * A) := imap pair xs.

(** Python's [<] on [(float, int)] tuples: the first components decide
    unless they are equal. *)
Definition tuple_lt (a b : Q * nat) : bool :=
  if Qeq_bool a.1 b.1 then a.2 <? b.2 else Qlt_bool a.1 b.1.

(** [heapq]: the heap is kept as a bag of entries. *)
Definition heapify (h : list (Q * nat)) : list (Q * nat) := h.

Definition heappush (h : list (Q * nat)) (e : Q * nat) : list (Q * nat) := e :: h.

(** The least entry of [x :: l], and the other entries. *)
Fixpoint pop_least (x : Q * nat) (l : list (Q * nat)) : (Q * nat) * list (Q * nat) :=
  match l with
  | [] => (x, [])
  | y :: l' =>
      let '(m, rest) := pop_least y l' in
      if tuple_lt m x then (m, x :: rest) else (x, l)
  end.

Definition heappop (h : list (Q * nat)) : result ((Q * nat) * list (Q * nat)) :=
  match h with
  | [] => IndexError
  | x :: l => Ok (pop_least x l)
  end.

Record ld_state := mkLdState {
  ld_selected : list (list (InputTestGroup * nat));
  ld_deselected : list (list InputTestGroup);
  ld_duration : list Q;
  ld_heap : list (Q * nat)
}.

Definition sorted_items_with_durations (input_test_groups : list InputTestGroup)
    : list (nat * InputTestGroup) :=
  sorted Qlt_bool (λ index_and_group, duration index_and_group.2) true
         (enumerate input_test_groups).

Definition ld_init (splits : Z) : ld_state :=
  {| ld_selected := (λ _, []) <$> range splits;
     ld_deselected := (λ _, []) <$> range splits;
     ld_duration := (λ _, 0%Q) <$> range splits;
     ld_heap := heapify ((λ i, (0%Q, i)) <$> range splits) |}.

(** The body of the loop over the sorted groups. *)
Definition ld_step (splits : Z) (st : ld_state)
    (index_and_group : nat * InputTestGroup) : result ld_state :=
  let '(original_index, input_test_group) := index_and_group in
  '((summed_durations, group_idx), heap) ← heappop (ld_heap st);
  let new_group_durations := (summed_durations + duration input_test_group)%Q in
  sel ← append_at (ld_selected st) group_idx (input_test_group, original_index);
  dur ← setitem (ld_duration st) group_idx new_group_durations;
  des ← deselect_others splits group_idx (ld_deselected st) input_test_group;
  Ok {| ld_selected := sel; ld_deselected := des; ld_duration := dur;
        ld_heap := heappush heap (new_group_durations, group_idx) |}.

(** The state after the groups [order] have been assigned. *)
Definition ld_run (splits : Z) (order : list (nat * InputTestGroup)) : result ld_state :=
  for_each (ld_step splits) (ld_init splits) order.

Definition ld_loop (splits : Z) (input_test_groups : list InputTestGroup) : result ld_state :=
  ld_run splits (sorted_items_with_durations input_test_groups).

Definition ld_output (st : ld_state) (i : nat) : result OutputTestGroup :=
  sel ← getitem (ld_selected st) i;
  let s := fst <$> sorted Nat.ltb (λ tup : InputTestGroup * nat, tup.2) false sel in
  d ← getitem (ld_deselected st) i;
  t ← getitem (ld_duration st) i;
  Ok {| selected := _flatten s; deselected := _flatten d; o_duration := t |}.

Definition least_duration (splits : Z) (input_test_groups : list InputTestGroup)
    : result (list OutputTestGroup) :=
  st ← ld_loop splits input_test_groups;
  comprehension (ld_output st) (range splits).

(** ** Duration estimator *)

(** [{name: durations[name] for name in test_ids if name in durations}] *)
Definition _remove_irrelevant_durations (items : list Item) (durations : gmap string Q)
    : gmap string Q :=
  let test_ids := nodeid <$> items in
  foldl (λ acc name,
           match durations !! name with
           | Some d => <[name:=d]> acc
           | None => acc
           end) ∅ test_ids.

(** [durations.values()]; the order of the values is immaterial for an
    exact sum. *)
Definition dict_values (durations : gmap string Q) : list Q :=
  snd <$> map_to_list durations.

Definition _get_avg_duration_per_test (durations : gmap string Q) : Q :=
  if decide (size durations ≠ 0)
  then (py_sum (dict_values durations) / inject_Z (Z.of_nat (size durations)))%Q
  else 1%Q.

Definition _get_items_with_durations (items : list Item) (durations : gmap string Q)
    : list (Item * Q) :=
  let durations := _remove_irrelevant_durations items durations in
  let avg_duration_per_test := _get_avg_duration_per_test durations in
  (λ item, (item, default avg_duration_per_test (durations !! nodeid item))) <$> items.

(** ** Grouper *)

(** [s.split('::')]: cut at the occurrences of the separator found from
    left to right, an occurrence starting where the previous one ended at
    the earliest. *)
Fixpoint split_colons (s : string) : list string :=
  match s with
  | EmptyString => [EmptyString]
  | String c s' =>
      let extend :=
        match split_colons s' with
        | [] => [String c EmptyString]
        | p :: ps => String c p :: ps
        end in
      match s' with
      | String c' rest =>
          if Ascii.eqb c ":" && Ascii.eqb c' ":"
          then EmptyString :: split_colons rest
          else extend
      | EmptyString => extend
      end
  end.

(** [s.count('::')]: the number of non-overlapping occurrences of the
    separator, counted from left to right. *)
Fixpoint count_colons (s : string) : nat :=
  match s with
  | EmptyString => 0
  | String c s' =>
      match s' with
      | String c' rest =>
          if Ascii.eqb c ":" && Ascii.eqb c' ":"
          then S (count_colons rest)
          else count_colons s'
      | EmptyString => 0
      end
  end.

(** A [defaultdict] whose keys are kept in insertion order, as every Python
    dict does: [d[k] = f(d[k])], with [dflt] for a missing key. *)
Fixpoint odict_update {V} (dflt : V) (f : V → V) (k : string) (d : list (string * V))
    : list (string * V) :=
  match d with
  | [] => [(k, f dflt)]
  | (k', v) :: d' =>
      if decide (k' = k) then (k', f v) :: d' else (k', v) :: odict_update dflt f k d'
  end.

Fixpoint odict_get {V} (dflt : V) (k : string) (d : list (string * V)) : V :=
  match d with
  | [] => dflt
  | (k', v) :: d' => if decide (k' = k) then v else odict_get dflt k d'
  end.

Definition odict_keys {V} (d : list (string * V)) : list string := fst <$> d.

(** [file, _ = item.nodeid.split('::')] *)
Definition file_of (it : Item) : result string :=
  match split_colons (nodeid it) with
  | [file; _] => Ok file
  | _ => ValueError
  end.

Definition by_file_step (st : list (string * list Item) * list (string * Q))
    (item_and_duration : Item * Q)
    : result (list (string * list Item) * list (string * Q)) :=
  let '(items_by_file, durations_by_file) := st in
  let '(it, d) := item_and_duration in
  file ← file_of it;
  Ok (odict_update [] (λ l, l ++ [it]) file items_by_file,
      odict_update 0%Q (λ x, (x + d)%Q) file durations_by_file).

(** The two branches of [group_tests]. *)
Definition group_by_test (items_with_durations : list (Item * Q)) : list InputTestGroup :=
  (λ '(it, d), {| tests := [it]; duration := d |}) <$> items_with_durations.

Definition group_by_file (items_with_durations : list (Item * Q))
    : result (list InputTestGroup) :=
  '(items_by_file, durations_by_file) ← for_each by_file_step ([], []) items_with_durations;
  Ok ((λ file, {| tests := odict_get [] file items_by_file;
                  duration := odict_get 0%Q file durations_by_file |})
        <$> odict_keys items_by_file).

Definition group_tests (group_type : string) (items : list Item)
    (durations : gmap string Q) : result (list InputTestGroup) :=
  let items_with_durations := _get_items_with_durations items durations in
  if decide (group_type = "test"%string) then Ok (group_by_test items_with_durations)
  else group_by_file items_with_durations.

(** ** Strategy registry *)

Inductive Algorithms :=
| Alg_duration_based_chunks
| Alg_least_duration.

(** The function held by an entry of the registry. *)
Definition Algorithms_value (a : Algorithms)
    : Z → list InputTestGroup → result (list OutputTestGroup) :=
  match a with
  | Alg_duration_based_chunks => duration_based_chunks
  | Alg_least_duration => least_duration
  end.

Definition Algorithms_name (a : Algorithms) : string :=
  match a with
  | Alg_duration_based_chunks => "duration_based_chunks"
  | Alg_least_duration => "least_duration"
  end.

Definition Algorithms_names : list string :=
  Algorithms_name <$> [Alg_duration_based_chunks; Alg_least_duration].

(** Sample inputs. *)
Definition item (s : string) : Item := {| nodeid := s |}.
Definition grp (s : string) (d : Q) : InputTestGroup :=
  {| tests := [item s]; duration := d |}.


(** * Invariants and orders used by the proofs *)

(** [x] may stay ahead of [y] in a list sorted with [before]: [y] does not
    have to come before [x]. *)
Definition in_order {A} (before : A → A → bool) (x y : A) : Prop := before y x = false.

(** What holds of the buckets once the groups [P] have been assigned. *)
Record chunk_inv (n : nat) (P : list InputTestGroup) (st : chunk_state) : Prop := {
  ci_sel_len : length (cs_selected st) = n;
  ci_des_len : length (cs_deselected st) = n;
  ci_dur_len : length (cs_duration st) = n;
  ci_concat : concat (cs_selected st) = P;
  ci_later : ∀ j ys, cs_group_idx st < j → cs_selected st !! j = Some ys → ys = [];
  ci_compl : ∀ i sel des,
    cs_selected st !! i = Some sel → cs_deselected st !! i = Some des → sel ++ des ≡ₚ P;
  ci_dur : ∀ i sel d,
    cs_selected st !! i = Some sel → cs_duration st !! i = Some d →
    (d == py_sum (duration <$> sel))%Q
}.

(** Python's tuple order on heap entries, as a proposition. *)
Definition tuple_ltP (a b : Q * nat) : Prop :=
  (a.1 < b.1)%Q ∨ (a.1 == b.1)%Q ∧ a.2 < b.2.

(** The heap entry of bucket [i] with cumulative duration [d]. *)
Definition heap_entry (i : nat) (d : Q) : Q * nat := (d, i).

(** The order of the compound key (duration descending, original index
    ascending) on the enumerated groups: [compound_before y x] says that [y]
    sorts strictly before [x]. *)
Definition compound_before (y x : nat * InputTestGroup) : bool :=
  if Qeq_bool (duration y.2) (duration x.2) then y.1 <? x.1
  else Qlt_bool (duration x.2) (duration y.2).

Definition compound_lt (y x : nat * InputTestGroup) : Prop :=
  (duration x.2 < duration y.2)%Q ∨ (duration y.2 == duration x.2)%Q ∧ y.1 < x.1.

(** What holds of the state of [least_duration] once the groups [P] have
    been assigned. *)
Record ld_inv (n : nat) (P : list (nat * InputTestGroup)) (st : ld_state) : Prop := {
  li_sel_len : length (ld_selected st) = n;
  li_des_len : length (ld_deselected st) = n;
  li_dur_len : length (ld_duration st) = n;
  li_heap : ld_heap st ≡ₚ imap heap_entry (ld_duration st);
  li_concat : concat (ld_selected st) ≡ₚ prod_swap <$> P;
  li_compl : ∀ i sel des,
    ld_selected st !! i = Some sel → ld_deselected st !! i = Some des →
    sel.*1 ++ des ≡ₚ P.*2;
  li_dur : ∀ i sel d,
    ld_selected st !! i = Some sel → ld_duration st !! i = Some d →
    (d == py_sum (duration <$> sel.*1))%Q
}.

(** The groups assigned to each bucket when a strategy returns, bucket by
    bucket, each bucket in the order in which its output lists them. *)
Definition ld_bucket (sel : list (InputTestGroup * nat)) : list InputTestGroup :=
  (sorted Nat.ltb (λ tup : InputTestGroup * nat, tup.2) false sel).*1.

Definition assigned (a : Algorithms) (splits : Z) (input_test_groups : list InputTestGroup)
    : result (list (list InputTestGroup)) :=
  match a with
  | Alg_duration_based_chunks =>
      st ← chunk_loop splits input_test_groups; Ok (cs_selected st)
  | Alg_least_duration =>
      st ← ld_loop splits input_test_groups; Ok (ld_bucket <$> ld_selected st)
  end.

(** What one output and the groups of its bucket have to do with each other
    and with the input. *)
Definition output_of_bucket (input_test_groups : list InputTestGroup)
    (o : OutputTestGroup) (b : list InputTestGroup) : Prop :=
  selected o = _flatten b ∧
  (o_duration o == py_sum (duration <$> b))%Q ∧
  selected o ++ deselected o ≡ₚ _flatten input_test_groups.

(** The group durations [5, 1, 1, 1] and [1, 1, 1, 5] of the examples. *)
Definition heavy_first : list InputTestGroup :=
  [grp "a" 5; grp "b" 1; grp "c" 1; grp "d" 1].

Definition heavy_last : list InputTestGroup :=
  [grp "a" 1; grp "b" 1; grp "c" 1; grp "d" 5].

(** The call ends with an exception. *)
Definition raises {A} (r : result A) : Prop := ∀ a, r ≠ Ok a.

(** Two full buckets followed by a group of duration zero. *)
Definition trailing_zero : list InputTestGroup :=
  [grp "a" 1; grp "b" 1; grp "c" 0].

(** The estimator in the words of the specification: keep the entries of
    the record whose id belongs to a current item, average what remains
    ([1] if nothing does), and give each item its recorded duration or else
    the average. *)
Definition relevant_durations (items : list Item) (durations : gmap string Q)
    : gmap string Q :=
  filter (λ entry, entry.1 ∈ nodeid <$> items) durations.

Definition average_duration (relevant : gmap string Q) : Q :=
  match (map_to_list relevant).*2 with
  | [] => 1%Q
  | values => (py_sum values / inject_Z (Z.of_nat (length values)))%Q
  end.

Definition estimated_durations (items : list Item) (durations : gmap string Q)
    : list (Item * Q) :=
  let relevant := relevant_durations items durations in
  (λ it, (it, match relevant !! nodeid it with
              | Some d => d
              | None => average_duration relevant
              end)) <$> items.

(** An output with nothing selected, nothing deselected and no duration. *)
Definition empty_output : OutputTestGroup :=
  {| selected := []; deselected := []; o_duration := 0%Q |}.

(** In [duration_based_chunks], every bucket the pointer has left holds at
    least the target [t]. *)
Definition closed_buckets_full (t : Q) (st : chunk_state) : Prop :=
  ∀ j d, j < cs_group_idx st → cs_duration st !! j = Some d → (t <= d)%Q.

(** The part of an id before its first separator. *)
Definition file_component (it : Item) : string :=
  default EmptyString (head (split_colons (nodeid it))).

(** The distinct elements of a list, in the order of their first
    occurrence. *)
Definition first_seen (l : list string) : list string :=
  foldl (λ acc f, if decide (f ∈ acc) then acc else acc ++ [f]) [] l.

(** The items of a file, in their given order, and the sum of the durations
    that come with them, added from left to right. *)
Definition file_members (f : string) (items : list Item) : list Item :=
  filter (λ it, file_component it = f) items.

Definition file_duration (f : string) (items_with_durations : list (Item * Q)) : Q :=
  py_sum (filter (λ p, file_component p.1 = f) items_with_durations).*2.

(** Per-file grouping, described group by group. *)
Definition groups_of_files (items_with_durations : list (Item * Q)) : list InputTestGroup :=
  (λ f, {| tests := file_members f items_with_durations.*1;
           duration := file_duration f items_with_durations |})
    <$> first_seen (file_component <$> items_with_durations.*1).

(** An insertion-ordered dict with the keys [keys] and the value [V k] at
    the key [k]. *)
Definition odict_of {V} (val : string → V) (keys : list string) : list (string * V) :=
  (λ k, (k, val k)) <$> keys.

(** * Properties *)

(** ** The exception monad and the loops *)

Lemma bind_Ok {A B} (m : result A) (f : A → result B) (b : B) :
  m ≫= f = Ok b ↔ ∃ a, m = Ok a ∧ f a = Ok b.
Proof.
  split.
  - destruct m; try discriminate. intros H. by exists a.
  - intros (a & -> & H). exact H.
Qed.

(** Splits a hypothesis [x ← m; k = Ok y] into its successful steps. *)
Ltac inv_ok :=
  repeat match goal with
  | H : _ ≫= _ = Ok _ |- _ =>
      let a := fresh "a" in
      let Ha := fresh "Hstep" in
      apply bind_Ok in H as (a & Ha & H)
  | H : Ok _ = Ok _ |- _ => injection H as H
  | H : IndexError = Ok _ |- _ => discriminate H
  | H : ValueError = Ok _ |- _ => discriminate H
  | H : ZeroDivisionError = Ok _ |- _ => discriminate H
  end.

Lemma for_each_app {S A} (body : S → A → result S) st l1 l2 :
  for_each body st (l1 ++ l2) = st' ← for_each body st l1; for_each body st' l2.
Proof.
  revert st. induction l1 as [|x l1 IH]; intros st; simpl; [done|].
  destruct (body st x); simpl; auto.
Qed.

Lemma for_each_snoc {S A} (body : S → A → result S) st l x :
  for_each body st (l ++ [x]) = st' ← for_each body st l; body st' x.
Proof.
  rewrite for_each_app. destruct (for_each body st l) as [st'| | |]; simpl; [|done..].
  by destruct (body st' x).
Qed.

(** An invariant indexed by the processed prefix is carried through a loop
    that does not raise. *)
Lemma for_each_invariant {S A} (body : S → A → result S) (I : list A → S → Prop) :
  (∀ P st x st', I P st → body st x = Ok st' → I (P ++ [x]) st') →
  ∀ l P st st', I P st → for_each body st l = Ok st' → I (P ++ l) st'.
Proof.
  intros Hstep. induction l as [|x l IH]; intros P st st' HI Hrun; simpl in *.
  - inv_ok. subst. by rewrite app_nil_r.
  - inv_ok. rewrite cons_middle, app_assoc. eauto.
Qed.

Lemma comprehension_Ok {A B} (f : A → result B) l ys :
  comprehension f l = Ok ys ↔ Forall2 (λ x y, f x = Ok y) l ys.
Proof.
  revert ys. induction l as [|x l IH]; intros ys; simpl.
  - split; [intros; inv_ok; subst; constructor | by inversion 1].
  - split.
    + intros H. inv_ok. subst. constructor; [done|]. by apply IH.
    + inversion 1 as [|? y ? ys' Hx Hl]; subst.
      apply bind_Ok. exists y. split; [done|].
      apply bind_Ok. exists ys'. split; [by apply IH | done].
Qed.

Lemma comprehension_range {B} (f : nat → result B) (n : Z) ys :
  comprehension f (range n) = Ok ys →
  length ys = Z.to_nat n ∧ ∀ i y, ys !! i = Some y → f i = Ok y.
Proof.
  intros H%comprehension_Ok. split.
  - apply Forall2_length in H. unfold range in H. by rewrite length_seq in H.
  - intros i y Hy.
    destruct (Forall2_lookup_r _ _ _ _ _ H Hy) as (x & Hx & Hf).
    unfold range in Hx. apply lookup_seq in Hx as [-> _]. exact Hf.
Qed.

(** ** Python lists *)

Lemma getitem_Ok {A} (l : list A) i x : getitem l i = Ok x ↔ l !! i = Some x.
Proof. unfold getitem. destruct (l !! i); split; intros; by simplify_eq. Qed.

Lemma setitem_Ok {A} (l : list A) i x l' :
  setitem l i x = Ok l' ↔ i < length l ∧ l' = <[i:=x]> l.
Proof.
  unfold setitem. destruct (l !! i) eqn:E.
  - apply lookup_lt_Some in E. split; [intros; by simplify_eq | by intros [_ ->]].
  - apply lookup_ge_None in E. split; [done | lia].
Qed.

Lemma append_at_Ok {A} (l : list (list A)) i x l' :
  append_at l i x = Ok l' ↔ ∃ xs, l !! i = Some xs ∧ l' = <[i:=xs ++ [x]]> l.
Proof.
  unfold append_at. split.
  - intros H. inv_ok. apply getitem_Ok in Hstep. apply setitem_Ok in H as [_ ->]. eauto.
  - intros (xs & Hxs & ->). apply bind_Ok. exists xs. split; [by apply getitem_Ok|].
    apply setitem_Ok. split; [by eapply lookup_lt_Some | done].
Qed.

Lemma range_length n : length (range n) = Z.to_nat n.
Proof. unfold range. apply length_seq. Qed.

Lemma range_lookup n i : i < Z.to_nat n → range n !! i = Some i.
Proof. intros. unfold range. by rewrite lookup_seq_lt. Qed.

Lemma init_lookup {A} (x : A) n i :
  ((λ _, x) <$> range n) !! i = if decide (i < Z.to_nat n) then Some x else None.
Proof.
  rewrite list_lookup_fmap. case_decide.
  - by rewrite range_lookup.
  - rewrite lookup_ge_None_2; [done | rewrite range_length; lia].
Qed.

(** The deselection loop appends the group to every bucket but [group_idx]. *)
Lemma deselect_loop_Ok group_idx (group : InputTestGroup) k : ∀ a des des',
  for_each (λ des i, if decide (i ≠ group_idx) then append_at des i group else Ok des)
           des (seq a k) = Ok des' →
  length des' = length des ∧
  ∀ i, des' !! i =
       (λ l, if decide (a ≤ i < a + k ∧ i ≠ group_idx) then l ++ [group] else l) <$> des !! i.
Proof.
  induction k as [|k IH]; intros a des des' H; simpl in H.
  - inv_ok. subst. split; [done|]. intros i.
    destruct (des' !! i); simpl; [|done]. by rewrite decide_False by lia.
  - inv_ok. rename a0 into mid. apply IH in H as [Hlen Hlk].
    case_decide as Hne.
    + apply append_at_Ok in Hstep as (xs & Hxs & ->).
      rewrite length_insert in Hlen. split; [done|]. intros i. rewrite Hlk.
      destruct (decide (i = a)) as [->|Hia].
      * rewrite list_lookup_insert_eq by (by eapply lookup_lt_Some).
        rewrite Hxs. simpl. rewrite decide_False by lia. by rewrite decide_True by lia.
      * rewrite list_lookup_insert_ne by done. destruct (des !! i); [simpl|done].
        f_equal. repeat case_decide; done || lia.
    + inv_ok. subst mid. split; [done|]. intros i. rewrite Hlk.
      destruct (des !! i); [simpl|done]. f_equal.
      repeat case_decide; done || lia.
Qed.

Lemma deselect_others_Ok splits group_idx des group des' :
  length des = Z.to_nat splits →
  deselect_others splits group_idx des group = Ok des' →
  length des' = length des ∧
  ∀ i, des' !! i = (λ l, if decide (i ≠ group_idx) then l ++ [group] else l) <$> des !! i.
Proof.
  intros Hlen H. apply deselect_loop_Ok in H as [Hl Hlk]. split; [done|].
  intros i. rewrite Hlk. destruct (des !! i) eqn:E; [simpl|done].
  apply lookup_lt_Some in E. f_equal. repeat case_decide; done || lia.
Qed.

(** The deselection loop raises nothing on buckets of the right number. *)
Lemma deselect_loop_total group_idx (group : InputTestGroup) k : ∀ a des,
  a + k ≤ length des →
  ∃ des', for_each (λ des i, if decide (i ≠ group_idx) then append_at des i group else Ok des)
                   des (seq a k) = Ok des'.
Proof.
  induction k as [|k IH]; intros a des Hlen; simpl; [eauto|].
  case_decide.
  - destruct (lookup_lt_is_Some_2 des a) as [xs Hxs]; [lia|].
    unfold append_at. rewrite (proj2 (getitem_Ok _ _ _) Hxs). simpl.
    unfold setitem. rewrite Hxs. simpl. apply IH. rewrite length_insert. lia.
  - simpl. apply IH. lia.
Qed.

Lemma deselect_others_total splits group_idx des group :
  length des = Z.to_nat splits →
  ∃ des', deselect_others splits group_idx des group = Ok des'.
Proof. intros Hlen. apply deselect_loop_total. lia. Qed.

(** ** Exact sums *)

Lemma foldl_Qplus_acc (a : Q) (xs : list Q) : (foldl Qplus a xs == a + py_sum xs)%Q.
Proof.
  unfold py_sum. revert a. induction xs as [|x xs IH]; intros a; simpl.
  - ring.
  - rewrite (IH (a + x)%Q), (IH (0 + x)%Q). ring.
Qed.

Lemma py_sum_cons (x : Q) (xs : list Q) : (py_sum (x :: xs) == x + py_sum xs)%Q.
Proof. unfold py_sum at 1. simpl. rewrite foldl_Qplus_acc. ring. Qed.

Lemma py_sum_app (xs ys : list Q) : (py_sum (xs ++ ys) == py_sum xs + py_sum ys)%Q.
Proof.
  induction xs as [|x xs IH]; simpl.
  - unfold py_sum at 2. simpl. ring.
  - rewrite !py_sum_cons, IH. ring.
Qed.

Lemma py_sum_Permutation (xs ys : list Q) : xs ≡ₚ ys → (py_sum xs == py_sum ys)%Q.
Proof.
  induction 1 as [|x xs ys _ IH|x y xs|xs ys zs _ IH1 _ IH2].
  - reflexivity.
  - by rewrite !py_sum_cons, IH.
  - rewrite !py_sum_cons. ring.
  - by rewrite IH1.
Qed.

Lemma py_sum_concat (xss : list (list Q)) :
  (py_sum (concat xss) == py_sum (py_sum <$> xss))%Q.
Proof.
  induction xss as [|xs xss IH]; simpl; [reflexivity|].
  by rewrite py_sum_app, py_sum_cons, IH.
Qed.

(** ** Buckets *)

Lemma _flatten_app gs1 gs2 : _flatten (gs1 ++ gs2) = _flatten gs1 ++ _flatten gs2.
Proof. unfold _flatten. by rewrite fmap_app, concat_app. Qed.

Lemma _flatten_concat gss : _flatten (concat gss) = concat (_flatten <$> gss).
Proof.
  induction gss as [|gs gss IH]; simpl; [done|]. by rewrite _flatten_app, IH.
Qed.

Lemma _flatten_Permutation gs1 gs2 : gs1 ≡ₚ gs2 → _flatten gs1 ≡ₚ _flatten gs2.
Proof. intros H. unfold _flatten. by rewrite H. Qed.

Lemma _flatten_sublist gs1 gs2 : gs1 `sublist_of` gs2 → _flatten gs1 `sublist_of` _flatten gs2.
Proof.
  induction 1 as [|g gs1 gs2 _ IH|g gs1 gs2 _ IH]; unfold _flatten in *; simpl.
  - constructor.
  - by apply sublist_app.
  - by apply sublist_inserts_l.
Qed.

(** Appending to bucket [i] appends to the concatenation of the buckets when
    every later bucket is empty. *)
Lemma concat_append_last {A} (l : list (list A)) i xs x :
  l !! i = Some xs →
  (∀ j ys, i < j → l !! j = Some ys → ys = []) →
  concat (<[i:=xs ++ [x]]> l) = concat l ++ [x].
Proof.
  intros Hi Hlater.
  assert (concat (drop (S i) l) = []) as Hdrop.
  { apply concat_nil_Forall, Forall_lookup. intros j ys Hj.
    rewrite lookup_drop in Hj. eapply Hlater; [|exact Hj]. lia. }
  rewrite <- (take_drop_middle l i xs Hi) at 2.
  rewrite insert_take_drop by (by eapply lookup_lt_Some).
  rewrite !concat_app. simpl. rewrite Hdrop, !app_nil_r. by rewrite app_assoc.
Qed.

(** Removing bucket [i] from the concatenation. *)
Lemma concat_delete_Permutation {A} (l : list (list A)) i xs :
  l !! i = Some xs → concat l ≡ₚ xs ++ concat (delete i l).
Proof.
  intros Hi. rewrite <- (take_drop_middle l i xs Hi) at 1.
  rewrite delete_take_drop, !concat_app. simpl.
  by rewrite Permutation_app_swap_app.
Qed.

(** ** The loop of [duration_based_chunks] *)

Lemma chunk_init_inv splits : chunk_inv (Z.to_nat splits) [] (chunk_init splits).
Proof.
  split; simpl; rewrite ?length_fmap, ?range_length; try done.
  - apply concat_nil_Forall, Forall_lookup. intros i x.
    rewrite init_lookup. case_decide; naive_solver.
  - intros j ys _. rewrite init_lookup. case_decide; naive_solver.
  - intros i sel des. rewrite !init_lookup. case_decide; naive_solver.
  - intros i sel d. rewrite !init_lookup. case_decide; [|done].
    intros [= <-] [= <-]. reflexivity.
Qed.

Lemma chunk_step_inv splits t P st group st' :
  chunk_inv (Z.to_nat splits) P st →
  chunk_step splits t st group = Ok st' →
  chunk_inv (Z.to_nat splits) (P ++ [group]) st'.
Proof.
  intros [Hsl Hdl Hul Hcat Hlater Hcompl Hdur] Hstep. unfold chunk_step in Hstep.
  apply bind_Ok in Hstep as (d & _ & Hstep). cbv zeta in Hstep.
  set (idx := if Qle_bool t d then S (cs_group_idx st) else cs_group_idx st) in *.
  assert (cs_group_idx st ≤ idx) as Hidx by (subst idx; destruct (Qle_bool t d); lia).
  apply bind_Ok in Hstep as (sel' & Hsel' & Hstep).
  apply bind_Ok in Hstep as (des' & Hdes' & Hstep).
  apply bind_Ok in Hstep as (d' & Hd' & Hstep).
  apply bind_Ok in Hstep as (dur' & Hdur' & Hstep).
  apply append_at_Ok in Hsel' as (xs & Hxs & ->).
  apply deselect_others_Ok in Hdes' as [Hdl' Hdes']; [|done].
  apply getitem_Ok in Hd'. apply setitem_Ok in Hdur' as [Hlt ->].
  injection Hstep as <-. split; simpl; rewrite ?length_insert; try congruence.
  - rewrite (concat_append_last _ _ _ _ Hxs); [by rewrite Hcat|].
    intros j ys Hj. apply Hlater. lia.
  - intros j ys Hj. rewrite list_lookup_insert_ne by lia. apply Hlater. lia.
  - intros i sel des Hsel. rewrite Hdes'. intros Hdes.
    apply fmap_Some in Hdes as (des0 & Hdes0 & ->).
    destruct (decide (i = idx)) as [->|Hne].
    + rewrite list_lookup_insert_eq in Hsel by (by eapply lookup_lt_Some).
      injection Hsel as <-. rewrite decide_False by (intros ?; done).
      rewrite <- (Hcompl _ _ _ Hxs Hdes0). by rewrite <- !app_assoc, (comm (++) [group]).
    + rewrite list_lookup_insert_ne in Hsel by done. rewrite decide_True by done.
      rewrite <- (Hcompl _ _ _ Hsel Hdes0). by rewrite app_assoc.
  - intros i sel e Hsel He. destruct (decide (i = idx)) as [->|Hne].
    + rewrite list_lookup_insert_eq in Hsel by (by eapply lookup_lt_Some).
      rewrite list_lookup_insert_eq in He by done.
      injection Hsel as <-. injection He as <-.
      rewrite fmap_app, py_sum_app, <- (Hdur _ _ _ Hxs Hd'). simpl.
      rewrite py_sum_cons. unfold py_sum. simpl. ring.
    + rewrite list_lookup_insert_ne in Hsel by done.
      rewrite list_lookup_insert_ne in He by done. eauto.
Qed.

Lemma chunk_loop_inv splits gs st :
  chunk_loop splits gs = Ok st → chunk_inv (Z.to_nat splits) gs st.
Proof.
  unfold chunk_loop. intros H. apply bind_Ok in H as (t & _ & H).
  eapply (for_each_invariant _ (chunk_inv (Z.to_nat splits))
            (λ P s x s', chunk_step_inv splits t P s x s') gs []);
    [apply chunk_init_inv | exact H].
Qed.

(** The outputs of [duration_based_chunks] are the buckets of the final
    state, flattened. *)
Lemma duration_based_chunks_Ok splits gs outs :
  duration_based_chunks splits gs = Ok outs →
  ∃ st, chunk_loop splits gs = Ok st ∧
        chunk_inv (Z.to_nat splits) gs st ∧
        length outs = Z.to_nat splits ∧
        selected <$> outs = _flatten <$> cs_selected st ∧
        ∀ i o, outs !! i = Some o →
          ∃ sel des, cs_selected st !! i = Some sel ∧ cs_deselected st !! i = Some des ∧
                     cs_duration st !! i = Some (o_duration o) ∧
                     selected o = _flatten sel ∧ deselected o = _flatten des.
Proof.
  unfold duration_based_chunks. intros H. apply bind_Ok in H as (st & Hloop & H).
  pose proof (chunk_loop_inv _ _ _ Hloop) as Hinv.
  apply comprehension_range in H as [Hlen Hout].
  assert (∀ i o, outs !! i = Some o →
    ∃ sel des, cs_selected st !! i = Some sel ∧ cs_deselected st !! i = Some des ∧
               cs_duration st !! i = Some (o_duration o) ∧
               selected o = _flatten sel ∧ deselected o = _flatten des) as Hall.
  { intros i o Ho. apply Hout in Ho. unfold chunk_output in Ho.
    apply bind_Ok in Ho as (sel & Hsel%getitem_Ok & Ho).
    apply bind_Ok in Ho as (des & Hdes%getitem_Ok & Ho).
    apply bind_Ok in Ho as (d & Hd%getitem_Ok & Ho).
    injection Ho as <-. simpl. eauto 10. }
  exists st. split_and!; try done.
  apply list_eq. intros i. rewrite !list_lookup_fmap.
  destruct (outs !! i) as [o|] eqn:Ho; simpl.
  - destruct (Hall _ _ Ho) as (sel & des & -> & _ & _ & -> & _). done.
  - apply lookup_ge_None in Ho. rewrite lookup_ge_None_2; [done|].
    rewrite (ci_sel_len _ _ _ Hinv). lia.
Qed.

(** ** Stable sorting *)

Section sort_by_facts.
Context {A : Type} (before : A → A → bool).

Lemma insert_by_Permutation x l : insert_by before x l ≡ₚ x :: l.
Proof.
    induction l as [|y l IH]; simpl; [done|].
    destruct (before y x); [|done]. rewrite IH. apply Permutation_swap.
Qed.

Lemma sort_by_Permutation l : sort_by before l ≡ₚ l.
Proof.
    induction l as [|x l IH]; simpl; [done|].
    by rewrite insert_by_Permutation, IH.
Qed.

Local Abbreviation in_order := (in_order before).

Hypothesis before_asym : ∀ x y, before x y = true → before y x = false.
Hypothesis before_negtrans :
    ∀ x y z, before x y = false → before y z = false → before x z = false.

Lemma insert_by_sorted x l :
    StronglySorted in_order l → StronglySorted in_order (insert_by before x l).
Proof.
    induction 1 as [|y l Hl IH Hy]; simpl.
    - repeat constructor.
    - destruct (before y x) eqn:E.
      + constructor; [done|]. rewrite insert_by_Permutation.
        constructor; [|done]. by apply before_asym.
      + constructor; [by constructor|]. constructor; [done|].
        eapply Forall_impl; [exact Hy|]. intros z Hz. unfold in_order in *. eauto.
Qed.

Lemma sort_by_sorted l : StronglySorted in_order (sort_by before l).
Proof.
    induction l as [|x l IH]; simpl; [constructor | by apply insert_by_sorted].
Qed.
End sort_by_facts.

Lemma insert_by_ext {A} (before1 before2 : A → A → bool) x l :
  (∀ y, y ∈ l → before1 y x = before2 y x) →
  insert_by before1 x l = insert_by before2 x l.
Proof.
  induction l as [|y l IH]; intros H; simpl; [done|].
  rewrite (H y) by set_solver. rewrite IH by set_solver. done.
Qed.

(** Sortedness in the weak sense is strict between elements that differ
    on a component without repetitions. *)
Lemma StronglySorted_strict {A B} (R R' : A → A → Prop) (f : A → B) l :
  (∀ a b, R a b → f a ≠ f b → R' a b) →
  NoDup (f <$> l) → StronglySorted R l → StronglySorted R' l.
Proof.
  intros HR Hnd Hs. induction Hs as [|a l Hl IH Ha]; [constructor|].
  rewrite fmap_cons in Hnd. apply NoDup_cons in Hnd as [Hnotin Hnd].
  constructor; [by apply IH|].
  apply Forall_lookup. intros i b Hb. apply HR.
  - rewrite Forall_lookup in Ha. by eapply Ha.
  - intros Heq. apply Hnotin. rewrite Heq. apply list_elem_of_fmap. exists b. split; [done|].
    by eapply list_elem_of_lookup_2.
Qed.

(** ** Enumeration *)

Lemma enumerate_lookup {A} (xs : list A) i k x :
  enumerate xs !! i = Some (k, x) ↔ k = i ∧ xs !! i = Some x.
Proof.
  unfold enumerate. rewrite list_lookup_imap.
  destruct (xs !! i); simpl; split; try intros [-> H]; intros; by simplify_eq.
Qed.

Lemma enumerate_fst {A} (xs : list A) : (enumerate xs).*1 = seq 0 (length xs).
Proof.
  apply list_eq. intros i. rewrite list_lookup_fmap. unfold enumerate.
  rewrite list_lookup_imap. destruct (xs !! i) eqn:E; simpl.
  - by rewrite lookup_seq_lt by (by eapply lookup_lt_Some).
  - apply lookup_ge_None in E. by rewrite lookup_ge_None_2 by (rewrite length_seq; lia).
Qed.

Lemma enumerate_snd {A} (xs : list A) : (enumerate xs).*2 = xs.
Proof.
  apply list_eq. intros i. rewrite list_lookup_fmap. unfold enumerate.
  rewrite list_lookup_imap. by destruct (xs !! i).
Qed.

Lemma imap_increasing {A} (f : nat → nat) (xs : list A) :
  (∀ i j, i < j → f i < f j) →
  StronglySorted (λ a b : nat * A, a.1 < b.1) (imap (λ i x, (f i, x)) xs).
Proof.
  revert f. induction xs as [|x xs IH]; intros f Hf; simpl; constructor.
  - apply (IH (f ∘ S)). intros i j Hij. simpl. apply Hf. lia.
  - apply Forall_lookup. intros i [k y]. rewrite list_lookup_imap.
    destruct (xs !! i); simpl; [|done]. intros [= <- <-]. simpl. apply Hf. lia.
Qed.

Lemma enumerate_increasing {A} (xs : list A) :
  StronglySorted (λ a b : nat * A, a.1 < b.1) (enumerate xs).
Proof. apply (imap_increasing id). auto. Qed.

(** ** The heap *)

Lemma Qlt_bool_iff (a b : Q) : Qlt_bool a b = true ↔ (a < b)%Q.
Proof.
  unfold Qlt_bool. rewrite negb_true_iff, <- not_true_iff_false, Qle_bool_iff.
  split; [apply Qnot_le_lt | apply Qlt_not_le].
Qed.

Lemma tuple_lt_spec (a b : Q * nat) : tuple_lt a b = true ↔ tuple_ltP a b.
Proof.
  unfold tuple_lt, tuple_ltP. destruct (Qeq_bool a.1 b.1) eqn:E.
  - apply Qeq_bool_iff in E. rewrite Nat.ltb_lt. split; [auto|].
    intros [H|[_ H]]; [|done]. rewrite E in H. by apply Qlt_irrefl in H.
  - apply Qeq_bool_neq in E. rewrite Qlt_bool_iff. tauto.
Qed.

Lemma tuple_lt_false (a b : Q * nat) :
  tuple_lt a b = false ↔ (b.1 <= a.1)%Q ∧ (a.2 < b.2 → (b.1 < a.1)%Q).
Proof.
  rewrite <- not_true_iff_false, tuple_lt_spec. unfold tuple_ltP. split.
  - intros H. assert (b.1 <= a.1)%Q as Hle by (apply Qnot_lt_le; tauto).
    split; [done|]. intros Hlt. apply Qle_lt_or_eq in Hle as [?|Heq]; [done|].
    exfalso. apply H. right. split; [by symmetry | done].
  - intros [Hle Hlt] [H|[Heq H]].
    + by apply Qle_not_lt in Hle.
    + apply Hlt in H. rewrite Heq in H. by apply Qlt_irrefl in H.
Qed.

Lemma tuple_lt_asym a b : tuple_lt a b = true → tuple_lt b a = false.
Proof.
  rewrite tuple_lt_spec, tuple_lt_false. unfold tuple_ltP.
  intros [H|[Heq H]].
  - split; [by apply Qlt_le_weak | done].
  - split; [rewrite Heq; apply Qle_refl | lia].
Qed.

Lemma tuple_lt_negtrans a b c :
  tuple_lt a b = false → tuple_lt b c = false → tuple_lt a c = false.
Proof.
  rewrite !tuple_lt_false. intros [H1 H1'] [H2 H2']. split.
  - by eapply Qle_trans.
  - intros Hac. destruct (decide (a.2 < b.2)) as [Hab|Hab].
    + eapply Qle_lt_trans; [exact H2 | auto].
    + eapply Qlt_le_trans; [apply H2'; lia | done].
Qed.

(** [pop_least] splits the entries into a least one and the others. *)
Lemma pop_least_spec l : ∀ x m rest,
  pop_least x l = (m, rest) →
  m :: rest ≡ₚ x :: l ∧ ∀ y, y ∈ x :: l → tuple_lt y m = false.
Proof.
  induction l as [|y l IH]; intros x m rest; simpl.
  - intros [= <- <-]. split; [done|]. intros y ->%list_elem_of_singleton.
    apply tuple_lt_false. split; [apply Qle_refl | lia].
  - destruct (pop_least y l) as [m' rest'] eqn:E.
    destruct (IH _ _ _ E) as [Hperm Hmin].
    destruct (tuple_lt m' x) eqn:Hlt; intros [= <- <-].
    + split; [by rewrite Permutation_swap, Hperm|].
      intros z [->|Hz]%elem_of_cons; [by apply tuple_lt_asym | auto].
    + split; [done|]. intros z [->|Hz]%elem_of_cons.
      * apply tuple_lt_false. split; [apply Qle_refl | lia].
      * eapply tuple_lt_negtrans; [by apply Hmin | done].
Qed.

Lemma imap_insert_Permutation {A B} (f : nat → A → B) (l : list A) i x y rest :
  l !! i = Some x →
  f i x :: rest ≡ₚ imap f l →
  f i y :: rest ≡ₚ imap f (<[i:=y]> l).
Proof.
  intros Hi Hperm.
  assert (length (take i l) = i) as Hlen.
  { rewrite length_take. apply lookup_lt_Some in Hi. lia. }
  rewrite insert_take_drop by (by eapply lookup_lt_Some).
  rewrite <- (take_drop_middle l i x Hi) in Hperm.
  rewrite imap_app in Hperm. rewrite imap_app. simpl in *.
  rewrite Hlen, Nat.add_0_r in *.
  rewrite <- Permutation_middle in Hperm. apply Permutation_cons_inv in Hperm.
  by rewrite <- Permutation_middle, Hperm.
Qed.

Lemma concat_insert_Permutation {A} (l : list (list A)) i xs x :
  l !! i = Some xs → concat (<[i:=xs ++ [x]]> l) ≡ₚ concat l ++ [x].
Proof.
  intros Hi. rewrite <- (take_drop_middle l i xs Hi) at 2.
  rewrite insert_take_drop by (by eapply lookup_lt_Some).
  rewrite !concat_app. simpl. rewrite <- ?app_assoc.
  do 2 apply Permutation_app_head. apply Permutation_app_comm.
Qed.

(** ** The loop of [least_duration] *)

Lemma ld_init_inv splits : ld_inv (Z.to_nat splits) [] (ld_init splits).
Proof.
  split; simpl; rewrite ?length_fmap, ?range_length; try done.
  - unfold heapify. apply reflexive_eq, list_eq. intros i.
    rewrite list_lookup_imap, !list_lookup_fmap.
    destruct (decide (i < Z.to_nat splits)).
    + by rewrite range_lookup.
    + by rewrite lookup_ge_None_2 by (rewrite range_length; lia).
  - apply reflexive_eq, concat_nil_Forall, Forall_lookup. intros i x.
    rewrite init_lookup. case_decide; naive_solver.
  - intros i sel des. rewrite !init_lookup. case_decide; naive_solver.
  - intros i sel d. rewrite !init_lookup. case_decide; [|done].
    intros [= <-] [= <-]. reflexivity.
Qed.

(** One round of the loop: on a state that satisfies the invariant the body
    raises nothing, it takes a bucket [b] of least cumulative duration, the
    lowest-numbered one among those, and assigns the group to it. *)
Lemma ld_step_spec splits P st k g :
  0 < Z.to_nat splits →
  ld_inv (Z.to_nat splits) P st →
  ∃ b s xs st',
    ld_duration st !! b = Some s ∧
    ld_selected st !! b = Some xs ∧
    (∀ j d, ld_duration st !! j = Some d → (s <= d)%Q ∧ (j < b → (s < d)%Q)) ∧
    ld_step splits st (k, g) = Ok st' ∧
    ld_selected st' = <[b:=xs ++ [(g, k)]]> (ld_selected st) ∧
    ld_duration st' = <[b:=(s + duration g)%Q]> (ld_duration st) ∧
    ld_inv (Z.to_nat splits) (P ++ [(k, g)]) st'.
Proof.
  intros Hpos [Hsl Hdl Hul Hheap Hcat Hcompl Hdur].
  destruct (ld_heap st) as [|x l] eqn:Eheap.
  { apply Permutation_length in Hheap. rewrite length_imap in Hheap. simpl in Hheap. lia. }
  destruct (pop_least x l) as [[s b] rest] eqn:Epop.
  destruct (pop_least_spec _ _ _ _ Epop) as [Hperm Hmin].
  assert (∀ j d, ld_duration st !! j = Some d → (d, j) ∈ x :: l) as Hentries.
  { intros j d Hj. rewrite Hheap. apply list_elem_of_lookup. exists j.
    rewrite list_lookup_imap, Hj. done. }
  assert (ld_duration st !! b = Some s) as Hb.
  { assert ((s, b) ∈ imap heap_entry (ld_duration st)) as Hin.
    { rewrite <- Hheap, <- Hperm. left. }
    apply list_elem_of_lookup in Hin as [i Hi]. rewrite list_lookup_imap in Hi.
    destruct (ld_duration st !! i) eqn:E; simpl in Hi; [|done].
    injection Hi as -> ->. done. }
  assert (b < Z.to_nat splits) as Hlt by (rewrite <- Hul; by eapply lookup_lt_Some).
  destruct (lookup_lt_is_Some_2 (ld_selected st) b) as [xs Hxs]; [lia|].
  destruct (deselect_others_total splits b (ld_deselected st) g Hdl) as [des' Hdes'].
  exists b, s, xs.
  eexists {| ld_selected := _; ld_deselected := des'; ld_duration := _; ld_heap := _ |}.
  split_and!; [done | done | | | simpl; reflexivity | simpl; reflexivity |].
  - intros j d Hj. apply Hentries, Hmin, tuple_lt_false in Hj. done.
  - unfold ld_step. rewrite Eheap. simpl. rewrite Epop. simpl.
    unfold append_at. rewrite (proj2 (getitem_Ok _ _ _) Hxs). simpl.
    unfold setitem. rewrite Hxs, Hb. simpl. rewrite Hdes'. simpl. reflexivity.
  - apply deselect_others_Ok in Hdes' as [Hdl' Hdes']; [|done].
    split; simpl; rewrite ?length_insert; try congruence.
    + unfold heappush. apply (imap_insert_Permutation heap_entry _ b s); [done|].
      by rewrite <- Hheap, <- Hperm.
    + rewrite (concat_insert_Permutation _ _ _ _ Hxs), Hcat, fmap_app. done.
    + intros i sel des Hsel. rewrite Hdes'. intros Hdes.
      apply fmap_Some in Hdes as (des0 & Hdes0 & ->). rewrite fmap_app. simpl.
      destruct (decide (i = b)) as [->|Hne].
      * rewrite list_lookup_insert_eq in Hsel by (by eapply lookup_lt_Some).
        injection Hsel as <-. rewrite decide_False by (intros ?; done).
        rewrite <- (Hcompl _ _ _ Hxs Hdes0), fmap_app. simpl.
        by rewrite <- !app_assoc, (comm (++) [g]).
      * rewrite list_lookup_insert_ne in Hsel by done. rewrite decide_True by done.
        rewrite <- (Hcompl _ _ _ Hsel Hdes0). by rewrite app_assoc.
    + intros i sel e Hsel He. destruct (decide (i = b)) as [->|Hne].
      * rewrite list_lookup_insert_eq in Hsel by (by eapply lookup_lt_Some).
        rewrite list_lookup_insert_eq in He by (by eapply lookup_lt_Some).
        injection Hsel as <-. injection He as <-.
        rewrite !fmap_app, py_sum_app, <- (Hdur _ _ _ Hxs Hb). simpl.
        rewrite py_sum_cons. unfold py_sum. simpl. ring.
      * rewrite list_lookup_insert_ne in Hsel by done.
        rewrite list_lookup_insert_ne in He by done. eauto.
Qed.

Lemma ld_step_inv splits P st x st' :
  0 < Z.to_nat splits →
  ld_inv (Z.to_nat splits) P st →
  ld_step splits st x = Ok st' →
  ld_inv (Z.to_nat splits) (P ++ [x]) st'.
Proof.
  intros Hpos Hinv Hstep. destruct x as [k g].
  destruct (ld_step_spec splits P st k g Hpos Hinv)
    as (b & s & xs & st'' & _ & _ & _ & Hstep' & _ & _ & Hinv').
  congruence.
Qed.

(** With at least one bucket the loop raises nothing, whatever the order
    in which the groups are taken. *)
Lemma ld_run_total splits order :
  0 < Z.to_nat splits →
  ∃ st, ld_run splits order = Ok st ∧ ld_inv (Z.to_nat splits) order st.
Proof.
  intros Hpos. unfold ld_run.
  induction order as [|[k g] order IH] using rev_ind.
  - exists (ld_init splits). split; [done | apply ld_init_inv].
  - destruct IH as (st & Hrun & Hinv).
    destruct (ld_step_spec splits order st k g Hpos Hinv)
      as (b & s & xs & st' & _ & _ & _ & Hstep & _ & _ & Hinv').
    exists st'. split; [|done].
    by rewrite for_each_snoc, Hrun.
Qed.

(** ** Buckets and outputs of the two strategies *)

Lemma lookup_sublist_concat {A} (l : list (list A)) i xs :
  l !! i = Some xs → xs `sublist_of` concat l.
Proof.
  intros Hi. rewrite <- (take_drop_middle l i xs Hi), concat_app. simpl.
  apply sublist_inserts_l, sublist_inserts_r. done.
Qed.

Lemma concat_fmap_Permutation {A B} (f g : A → list B) (l : list A) :
  (∀ x, x ∈ l → f x ≡ₚ g x) → concat (f <$> l) ≡ₚ concat (g <$> l).
Proof.
  induction l as [|x l IH]; intros H; simpl; [done|].
  rewrite (H x) by set_solver. rewrite IH by set_solver. done.
Qed.

(** Pairs with strictly increasing indices into [gs] list a subsequence of
    [gs]. *)
Lemma increasing_indices_sublist {A} (gs : list A) : ∀ (off : nat) (l : list (A * nat)),
  StronglySorted (λ a b, a.2 < b.2) l →
  (∀ g k, (g, k) ∈ l → off ≤ k ∧ gs !! (k - off) = Some g) →
  l.*1 `sublist_of` gs.
Proof.
  induction gs as [|x gs IH]; intros off l Hs Hl.
  - destruct l as [|[g k] l]; [constructor|].
    destruct (Hl g k) as [_ H]; [left | done].
  - destruct l as [|[g k] l]; [apply sublist_nil_l|].
    apply StronglySorted_inv in Hs as [Hs Hhd].
    destruct (Hl g k) as [Hoff Hk]; [left|].
    destruct (decide (k = off)) as [->|Hne].
    + rewrite Nat.sub_diag in Hk. injection Hk as ->. simpl.
      apply sublist_skip, (IH (S off)); [done|].
      intros g' k' Hin.
      assert (off < k') as Hlt.
      { rewrite Forall_forall in Hhd. by apply (Hhd (g', k')). }
      destruct (Hl g' k') as [_ Hk']; [by right|].
      split; [lia|]. replace (k' - off) with (S (k' - S off)) in Hk' by lia. done.
    + apply sublist_cons, (IH (S off)); [by constructor|].
      intros g' k' Hin.
      assert (off < k') as Hlt.
      { apply elem_of_cons in Hin as [[= -> ->]|Hin]; [lia|].
        rewrite Forall_forall in Hhd. specialize (Hhd (g', k') Hin). simpl in Hhd. lia. }
      destruct (Hl g' k') as [_ Hk']; [done|].
      split; [lia|]. replace (k' - off) with (S (k' - S off)) in Hk' by lia. done.
Qed.

Lemma ld_bucket_Permutation sel : ld_bucket sel ≡ₚ sel.*1.
Proof. unfold ld_bucket, sorted. by rewrite sort_by_Permutation. Qed.

(** Re-sorting a bucket by original index puts its groups in input order. *)
Lemma ld_bucket_sublist (gs : list InputTestGroup) sel :
  NoDup sel.*2 →
  (∀ g k, (g, k) ∈ sel → gs !! k = Some g) →
  ld_bucket sel `sublist_of` gs.
Proof.
  intros Hnd Hin. unfold ld_bucket, sorted.
  set (before := goes_before Nat.ltb (λ tup : InputTestGroup * nat, tup.2) false).
  apply (increasing_indices_sublist gs 0).
  - apply (StronglySorted_strict (in_order before) _ snd).
    + unfold in_order, before, goes_before. intros a b Hab Hne.
      apply Nat.ltb_ge in Hab. lia.
    + by rewrite sort_by_Permutation.
    + apply sort_by_sorted; unfold before, goes_before.
      * intros x y Hxy%Nat.ltb_lt. apply Nat.ltb_ge. lia.
      * intros x y z Hxy%Nat.ltb_ge Hyz%Nat.ltb_ge. apply Nat.ltb_ge. lia.
  - intros g k Hgk. rewrite sort_by_Permutation in Hgk.
    rewrite Nat.sub_0_r. split; [lia | auto].
Qed.

Lemma fmap_concat {A B} (f : A → B) (l : list (list A)) :
  f <$> concat l = concat ((fmap f : list A → list B) <$> l).
Proof. induction l as [|x l IH]; simpl; [done|]. by rewrite fmap_app, IH. Qed.

Lemma prod_swap_fst {A B} (l : list (A * B)) : (prod_swap <$> l).*1 = l.*2.
Proof. rewrite <- list_fmap_compose. apply list_fmap_ext. by intros ? [??] ?. Qed.

Lemma prod_swap_snd {A B} (l : list (A * B)) : (prod_swap <$> l).*2 = l.*1.
Proof. rewrite <- list_fmap_compose. apply list_fmap_ext. by intros ? [??] ?. Qed.

Lemma sorted_items_Permutation gs : sorted_items_with_durations gs ≡ₚ enumerate gs.
Proof. unfold sorted_items_with_durations, sorted. apply sort_by_Permutation. Qed.

Lemma ld_loop_total splits gs :
  (1 ≤ splits)%Z →
  ∃ st, ld_loop splits gs = Ok st ∧
        ld_inv (Z.to_nat splits) (sorted_items_with_durations gs) st.
Proof. intros HN. apply ld_run_total. lia. Qed.

Lemma dbc_buckets splits gs outs :
  duration_based_chunks splits gs = Ok outs →
  ∃ buckets, assigned Alg_duration_based_chunks splits gs = Ok buckets ∧
    length outs = Z.to_nat splits ∧
    Forall2 (output_of_bucket gs) outs buckets ∧
    concat buckets = gs.
Proof.
  intros H. apply duration_based_chunks_Ok in H
    as (st & Hloop & [Hsl Hdl Hul Hcat Hlater Hcompl Hdur] & Hlen & _ & Hout).
  exists (cs_selected st). split_and!; try done.
  - simpl. by rewrite Hloop.
  - apply Forall2_same_length_lookup_2; [congruence|].
    intros i o b Ho Hb. unfold output_of_bucket.
    destruct (Hout _ _ Ho) as (sel & des & Hsel & Hdes & Hd & -> & ->).
    assert (sel = b) as -> by congruence.
    split_and!; [done | by eapply Hdur |].
    rewrite <- _flatten_app. by apply _flatten_Permutation, (Hcompl i).
Qed.

Lemma ld_buckets splits gs outs :
  (1 ≤ splits)%Z →
  least_duration splits gs = Ok outs →
  ∃ buckets, assigned Alg_least_duration splits gs = Ok buckets ∧
    length outs = Z.to_nat splits ∧
    Forall2 (output_of_bucket gs) outs buckets ∧
    concat buckets ≡ₚ gs ∧
    Forall (λ b, b `sublist_of` gs) buckets.
Proof.
  intros HN H. unfold least_duration in H.
  destruct (ld_loop_total splits gs HN) as (st & Hloop & [Hsl Hdl Hul _ Hcat Hcompl Hdur]).
  rewrite Hloop in H. simpl in H.
  apply comprehension_range in H as [Hlen Hout].
  pose proof (sorted_items_Permutation gs) as Hperm.
  set (P := sorted_items_with_durations gs) in *.
  exists (ld_bucket <$> ld_selected st). split_and!; try done.
  - simpl. by rewrite Hloop.
  - apply Forall2_same_length_lookup_2; [rewrite length_fmap; congruence|].
    intros i o b Ho Hb. apply Hout in Ho. unfold ld_output in Ho.
    apply bind_Ok in Ho as (sel & Hsel%getitem_Ok & Ho). cbv zeta in Ho.
    apply bind_Ok in Ho as (des & Hdes%getitem_Ok & Ho).
    apply bind_Ok in Ho as (d & Hd%getitem_Ok & Ho).
    injection Ho as <-. rewrite list_lookup_fmap, Hsel in Hb. injection Hb as <-.
    unfold output_of_bucket. split_and!; simpl.
    + done.
    + rewrite (Hdur _ _ _ Hsel Hd). apply py_sum_Permutation.
      by rewrite ld_bucket_Permutation.
    + change (_flatten (ld_bucket sel) ++ _flatten des ≡ₚ _flatten gs).
      rewrite <- _flatten_app. apply _flatten_Permutation.
      rewrite ld_bucket_Permutation, (Hcompl _ _ _ Hsel Hdes), Hperm.
      by rewrite enumerate_snd.
  - rewrite (concat_fmap_Permutation ld_bucket
               (fmap fst : list (InputTestGroup * nat) → list InputTestGroup))
      by (intros; apply ld_bucket_Permutation).
    by rewrite <- fmap_concat, Hcat, prod_swap_fst, Hperm, enumerate_snd.
  - apply Forall_lookup. intros i b Hb. rewrite list_lookup_fmap in Hb.
    apply fmap_Some in Hb as (sel & Hsel & ->).
    pose proof (lookup_sublist_concat _ _ _ Hsel) as Hsub.
    apply ld_bucket_sublist.
    + apply (sublist_NoDup _ (concat (ld_selected st)).*2); [|by apply fmap_sublist].
      rewrite Hcat, prod_swap_snd, Hperm, enumerate_fst. apply NoDup_seq.
    + intros g k Hgk. eapply elem_of_sublist in Hgk; [|exact Hsub].
      rewrite Hcat in Hgk. apply list_elem_of_fmap in Hgk as ([k' g'] & [= -> ->] & Hin).
      rewrite Hperm in Hin. apply list_elem_of_lookup in Hin as [j Hj].
      apply enumerate_lookup in Hj as [-> Hj]. done.
Qed.

(** What both strategies guarantee of their outputs for [N >= 1]. *)
Lemma strategy_buckets a N gs outs :
  (1 ≤ N)%Z →
  Algorithms_value a N gs = Ok outs →
  ∃ buckets, assigned a N gs = Ok buckets ∧
    length outs = Z.to_nat N ∧
    Forall2 (output_of_bucket gs) outs buckets ∧
    concat buckets ≡ₚ gs ∧
    Forall (λ b, b `sublist_of` gs) buckets.
Proof.
  intros HN H. destruct a; simpl in H.
  - apply dbc_buckets in H as (buckets & Ha & Hlen & Hout & Hcat).
    exists buckets. split_and!; try done.
    + by rewrite Hcat.
    + apply Forall_lookup. intros i b Hb. rewrite <- Hcat.
      by eapply lookup_sublist_concat.
  - by apply ld_buckets.
Qed.

Lemma Forall2_fmap_eq {A B C} (f : A → C) (g : B → C) l k :
  Forall2 (λ x y, f x = g y) l k → f <$> l = g <$> k.
Proof. induction 1 as [|x y l k Hxy _ IH]; csimpl; [done|]. by rewrite Hxy, IH. Qed.

Lemma Forall2_py_sum {A B} (f : A → Q) (g : B → Q) l k :
  Forall2 (λ x y, (f x == g y)%Q) l k → (py_sum (f <$> l) == py_sum (g <$> k))%Q.
Proof.
  induction 1 as [|x y l k Hxy _ IH]; csimpl; [reflexivity|].
  by rewrite !py_sum_cons, Hxy, IH.
Qed.

Lemma selected_of_buckets gs outs buckets :
  Forall2 (output_of_bucket gs) outs buckets →
  selected <$> outs = _flatten <$> buckets.
Proof.
  intros H. apply Forall2_fmap_eq. eapply Forall2_impl; [exact H|].
  by intros o b [? _].
Qed.

(** ** The processing order of [least_duration] *)

Lemma compound_before_spec y x : compound_before y x = true ↔ compound_lt y x.
Proof.
  unfold compound_before, compound_lt.
  destruct (Qeq_bool (duration y.2) (duration x.2)) eqn:E.
  - apply Qeq_bool_iff in E. rewrite Nat.ltb_lt. split; [auto|].
    intros [H|[_ H]]; [|done]. rewrite E in H. by apply Qlt_irrefl in H.
  - apply Qeq_bool_neq in E. rewrite Qlt_bool_iff. tauto.
Qed.

(** The compound key order is the tuple order on (negated duration, index). *)
Lemma compound_before_tuple y x :
  compound_before y x = tuple_lt ((- duration y.2)%Q, y.1) ((- duration x.2)%Q, x.1).
Proof.
  apply eq_true_iff_eq. rewrite compound_before_spec, tuple_lt_spec.
  unfold compound_lt, tuple_ltP. simpl. split.
  - intros [H|[H1 H2]]; [left; lra | right; split; [lra | done]].
  - intros [H|[H1 H2]]; [left; lra | right; split; [lra | done]].
Qed.

Lemma compound_before_asym y x :
  compound_before y x = true → compound_before x y = false.
Proof. rewrite !compound_before_tuple. apply tuple_lt_asym. Qed.

Lemma compound_before_negtrans x y z :
  compound_before x y = false → compound_before y z = false →
  compound_before x z = false.
Proof. rewrite !compound_before_tuple. apply tuple_lt_negtrans. Qed.

(** Between two groups of different index, the one that need not come later
    comes strictly earlier. *)
Lemma compound_total x y :
  compound_before y x = false → x.1 ≠ y.1 → compound_lt x y.
Proof.
  rewrite compound_before_tuple, tuple_lt_false. simpl. intros [Hle Hlt] Hne.
  unfold compound_lt.
  destruct (Qlt_le_dec (duration y.2) (duration x.2)) as [H|H]; [by left|].
  right. split; [lra|].
  destruct (decide (y.1 < x.1)) as [Hyx|Hyx]; [apply Hlt in Hyx; lra | lia].
Qed.

(** On groups met in increasing index order, the stable sort by decreasing
    duration and the sort on the compound key insert alike. *)
Lemma stable_sort_is_compound_sort (l : list (nat * InputTestGroup)) :
  StronglySorted (λ a b, a.1 < b.1) l →
  sorted Qlt_bool (λ index_and_group, duration index_and_group.2) true l
  = sort_by compound_before l.
Proof.
  unfold sorted. induction 1 as [|x l Hl IH Hx]; simpl; [done|].
  rewrite IH. apply insert_by_ext. intros y Hy.
  rewrite sort_by_Permutation in Hy. rewrite Forall_forall in Hx.
  specialize (Hx y Hy). unfold goes_before, compound_before.
  destruct (Qeq_bool (duration y.2) (duration x.2)) eqn:E; [|done].
  apply Qeq_bool_iff in E.
  rewrite (proj2 (Nat.ltb_ge _ _)) by lia.
  apply not_true_iff_false. rewrite Qlt_bool_iff. lra.
Qed.


(** ** The duration estimator *)

Lemma remove_irrelevant_fold (durations : gmap string Q) (ids : list string) :
  ∀ (acc : gmap string Q) (id : string),
    foldl (λ acc name,
             match durations !! name with
             | Some d => <[name:=d]> acc
             | None => acc
             end) acc ids !! id
    = match (if decide (id ∈ ids) then durations !! id else None) with
      | Some d => Some d
      | None => acc !! id
      end.
Proof.
  induction ids as [|name ids IH]; intros acc id; cbn [foldl].
  - rewrite decide_False by set_solver. done.
  - rewrite IH. destruct (decide (id ∈ ids)) as [Hin|Hnin].
    + rewrite (decide_True (P := id ∈ name :: ids)) by set_solver.
      destruct (durations !! id) as [d|] eqn:E; [done|].
      destruct (decide (name = id)) as [->|Hne]; [by rewrite E|].
      destruct (durations !! name); [by rewrite lookup_insert_ne | done].
    + destruct (decide (name = id)) as [->|Hne].
      * rewrite (decide_True (P := id ∈ id :: ids)) by constructor.
        destruct (durations !! id) as [d|]; [by rewrite lookup_insert_eq | done].
      * rewrite (decide_False (P := id ∈ name :: ids))
          by (intros [?|?]%elem_of_cons; congruence).
        destruct (durations !! name); [by rewrite lookup_insert_ne | done].
Qed.

Lemma _remove_irrelevant_durations_lookup items durations id :
  _remove_irrelevant_durations items durations !! id
  = if decide (id ∈ nodeid <$> items) then durations !! id else None.
Proof.
  unfold _remove_irrelevant_durations. rewrite remove_irrelevant_fold, lookup_empty.
  case_decide; [by destruct (durations !! id) | done].
Qed.

Lemma _remove_irrelevant_durations_filter items durations :
  _remove_irrelevant_durations items durations = relevant_durations items durations.
Proof.
  apply map_eq. intros id. rewrite _remove_irrelevant_durations_lookup.
  unfold relevant_durations. symmetry. case_decide as Hin.
  - destruct (durations !! id) as [d|] eqn:E.
    + by apply map_lookup_filter_Some_2.
    + apply map_lookup_filter_None_2. by left.
  - apply map_lookup_filter_None_2. right. by intros d _.
Qed.

Lemma _get_avg_duration_per_test_average relevant :
  _get_avg_duration_per_test relevant = average_duration relevant.
Proof.
  unfold _get_avg_duration_per_test, average_duration, dict_values.
  rewrite <- length_map_to_list, <- (length_fmap snd).
  destruct ((map_to_list relevant).*2) as [|v vs] eqn:E.
  - by rewrite decide_False by (simpl; lia).
  - by rewrite decide_True by (simpl; lia).
Qed.

(** ** Decomposition of ids *)

Lemma string_ind2 (P : string → Prop) :
  P EmptyString →
  (∀ c, P (String c EmptyString)) →
  (∀ c c' rest, P rest → P (String c' rest) → P (String c (String c' rest))) →
  ∀ s, P s.
Proof.
  intros H0 H1 H2.
  assert (∀ s, P s ∧ ∀ c, P (String c s)) as H; [|intros s; apply H].
  induction s as [|c' s [IHs IHc]]; [by split|].
  split; [apply IHc|]. intros c. by apply H2.
Qed.

Lemma split_colons_cons2 c c' rest :
  split_colons (String c (String c' rest))
  = if Ascii.eqb c ":" && Ascii.eqb c' ":"
    then EmptyString :: split_colons rest
    else match split_colons (String c' rest) with
         | [] => [String c EmptyString]
         | p :: ps => String c p :: ps
         end.
Proof. reflexivity. Qed.

Lemma count_colons_cons2 c c' rest :
  count_colons (String c (String c' rest))
  = if Ascii.eqb c ":" && Ascii.eqb c' ":"
    then S (count_colons rest)
    else count_colons (String c' rest).
Proof. reflexivity. Qed.

(** [split] yields one more part than there are separators. *)
Lemma split_colons_length s : length (split_colons s) = S (count_colons s).
Proof.
  induction s as [|c|c c' rest IH1 IH2] using string_ind2; [done..|].
  rewrite split_colons_cons2, count_colons_cons2.
  destruct (Ascii.eqb c ":" && Ascii.eqb c' ":"); [simpl; by rewrite IH1|].
  rewrite <- IH2. by destruct (split_colons (String c' rest)).
Qed.

(** Joining the parts with the separator gives the string back. *)
Lemma split_colons_join s : String.concat "::" (split_colons s) = s.
Proof.
  induction s as [|c|c c' rest IH1 IH2] using string_ind2; [done..|].
  rewrite split_colons_cons2.
  destruct (Ascii.eqb c ":" && Ascii.eqb c' ":") eqn:E.
  - apply andb_true_iff in E as [->%Ascii.eqb_eq ->%Ascii.eqb_eq].
    pose proof (split_colons_length rest) as Hlen.
    destruct (split_colons rest) as [|p ps]; [done|].
    change (String.concat "::" (EmptyString :: p :: ps))
      with (String ":" (String ":" (String.concat "::" (p :: ps)))).
    by rewrite IH1.
  - pose proof (split_colons_length (String c' rest)) as Hlen.
    destruct (split_colons (String c' rest)) as [|p ps]; [done|].
    rewrite <- IH2. by destruct ps.
Qed.

Lemma file_of_Ok it :
  count_colons (nodeid it) = 1 →
  ∃ file rest, split_colons (nodeid it) = [file; rest] ∧
               nodeid it = String.append file (String.append "::" rest) ∧
               file_of it = Ok file.
Proof.
  intros Hcount. pose proof (split_colons_length (nodeid it)) as Hlen.
  pose proof (split_colons_join (nodeid it)) as Hjoin.
  unfold file_of. rewrite Hcount in Hlen.
  destruct (split_colons (nodeid it)) as [|file [|rest [|? ?]]]; try done.
  exists file, rest. by rewrite <- Hjoin.
Qed.

Lemma file_of_ValueError it :
  count_colons (nodeid it) ≠ 1 → file_of it = ValueError.
Proof.
  intros Hcount. pose proof (split_colons_length (nodeid it)) as Hlen.
  unfold file_of.
  destruct (split_colons (nodeid it)) as [|file [|rest [|? ?]]]; try done.
  simpl in Hlen. lia.
Qed.

(** The per-file loop raises exactly when it meets an id that does not
    hold one separator. *)
Lemma by_file_loop (l : list (Item * Q)) : ∀ st,
  (Forall (λ p, count_colons (nodeid p.1) = 1) l ∧
   ∃ st', for_each by_file_step st l = Ok st') ∨
  (Exists (λ p, count_colons (nodeid p.1) ≠ 1) l ∧
   for_each by_file_step st l = ValueError).
Proof.
  induction l as [|[it d] l IH]; intros [ibf dbf]; simpl.
  - left. split; [constructor | eauto].
  - destruct (decide (count_colons (nodeid it) = 1)) as [Hone|Hnot].
    + destruct (file_of_Ok it Hone) as (file & rest & _ & _ & ->). simpl.
      match goal with |- context [for_each by_file_step ?s l] => destruct (IH s) as [[H1 H2]|[H1 H2]] end.
      * left. split; [by constructor | done].
      * right. split; [by apply Exists_cons_tl | done].
    + right. split; [by apply Exists_cons_hd|].
      by rewrite (file_of_ValueError it Hnot).
Qed.

Lemma group_by_file_cases items durations :
  ((∀ it, it ∈ items → count_colons (nodeid it) = 1) ∧
   ∃ gs, group_by_file (_get_items_with_durations items durations) = Ok gs) ∨
  ((∃ it, it ∈ items ∧ count_colons (nodeid it) ≠ 1) ∧
   group_by_file (_get_items_with_durations items durations) = ValueError).
Proof.
  unfold group_by_file.
  destruct (by_file_loop (_get_items_with_durations items durations) ([], []))
    as [[Hall [[ibf dbf] ->]]|[Hex ->]].
  - left. split; [|simpl; eauto].
    intros it Hit. rewrite Forall_forall in Hall.
    unfold _get_items_with_durations in Hall.
    specialize (Hall (it, _) (list_elem_of_fmap_2 _ _ _ Hit)). done.
  - right. split; [|done].
    apply Exists_exists in Hex as ([it d] & Hin & Hcount).
    unfold _get_items_with_durations in Hin.
    apply list_elem_of_fmap in Hin as (it' & [= -> _] & Hit'). eauto.
Qed.

(** ** When the strategies return *)

Lemma comprehension_total {A B} (f : A → result B) (l : list A) :
  (∀ x, x ∈ l → ∃ y, f x = Ok y) → ∃ ys, comprehension f l = Ok ys.
Proof.
  induction l as [|x l IH]; intros H; simpl; [eauto|].
  destruct (H x) as [y ->]; [left|]. destruct IH as [ys ->]; [|simpl; eauto].
  intros z Hz. apply H. by right.
Qed.

(** [least_duration] returns for every [N >= 1]. *)
Lemma least_duration_total (N : Z) (gs : list InputTestGroup) :
  (1 ≤ N)%Z → ∃ outs, least_duration N gs = Ok outs.
Proof.
  intros HN. unfold least_duration.
  destruct (ld_loop_total N gs HN) as (st & -> & [Hsl Hdl Hul _ _ _ _]). simpl.
  apply comprehension_total. intros i Hi.
  unfold range in Hi. apply elem_of_seq in Hi as [_ Hi]. simpl in Hi.
  destruct (lookup_lt_is_Some_2 (ld_selected st) i) as [s Hs]; [lia|].
  destruct (lookup_lt_is_Some_2 (ld_deselected st) i) as [d Hd]; [lia|].
  destruct (lookup_lt_is_Some_2 (ld_duration st) i) as [t Ht]; [lia|].
  unfold ld_output, getitem. rewrite Hs. simpl. rewrite Hd. simpl. rewrite Ht. simpl. eauto.
Qed.

Lemma py_sum_nonneg (xs : list Q) : Forall (λ x, (0 < x)%Q) xs → (0 <= py_sum xs)%Q.
Proof.
  induction 1 as [|x xs Hx _ IH]; [unfold py_sum; simpl; lra|].
  rewrite py_sum_cons. lra.
Qed.

(** One round of the loop of [duration_based_chunks] on a group of positive
    duration that leaves the total unexceeded: with exact sums the pointer
    stays below the number of buckets. *)
Lemma chunk_step_total (N : Z) (t : Q) P st g :
  (0 < t)%Q →
  (0 < duration g)%Q →
  (py_sum (duration <$> P) + duration g <= inject_Z N * t)%Q →
  chunk_inv (Z.to_nat N) P st →
  (∃ d, cs_duration st !! cs_group_idx st = Some d ∧
        (inject_Z (Z.of_nat (cs_group_idx st)) * t + d <= py_sum (duration <$> P))%Q) →
  ∃ st', chunk_step N t st g = Ok st' ∧
    ∃ d', cs_duration st' !! cs_group_idx st' = Some d' ∧
          (inject_Z (Z.of_nat (cs_group_idx st')) * t + d'
           <= py_sum (duration <$> (P ++ [g])))%Q.
Proof.
  intros Ht Hg Htotal Hinv (d & Hd & Hlow).
  pose proof Hinv as [Hsl Hdl Hul Hcat Hlater Hcompl Hdur].
  unfold chunk_step. rewrite (proj2 (getitem_Ok _ _ _) Hd). simpl.
  set (idx := if Qle_bool t d then S (cs_group_idx st) else cs_group_idx st).
  assert (idx < Z.to_nat N ∧
          ∃ e, cs_duration st !! idx = Some e ∧
               (inject_Z (Z.of_nat idx) * t + e <= py_sum (duration <$> P))%Q)
    as (Hidx & e & He & Hlow').
  { subst idx. destruct (Qle_bool t d) eqn:E.
    - apply Qle_bool_iff in E.
      assert (inject_Z (Z.of_nat (S (cs_group_idx st))) * t
              <= py_sum (duration <$> P))%Q as Hnext.
      { assert (inject_Z (Z.of_nat (S (cs_group_idx st)))
                == inject_Z (Z.of_nat (cs_group_idx st)) + 1)%Q as ->.
        { rewrite Nat2Z.inj_succ, <- Z.add_1_r, inject_Z_plus. reflexivity. }
        rewrite Qmult_plus_distr_l, Qmult_1_l.
        set (x := (inject_Z (Z.of_nat (cs_group_idx st)) * t)%Q) in *. lra. }
      assert (S (cs_group_idx st) < Z.to_nat N) as Hlt.
      { assert (inject_Z (Z.of_nat (S (cs_group_idx st))) < inject_Z N)%Q as Hq.
        { apply (Qmult_lt_r _ _ t Ht). lra. }
        rewrite <- Zlt_Qlt in Hq. lia. }
      split; [done|].
      destruct (lookup_lt_is_Some_2 (cs_duration st) (S (cs_group_idx st))) as [e He]; [lia|].
      destruct (lookup_lt_is_Some_2 (cs_selected st) (S (cs_group_idx st))) as [ys Hys]; [lia|].
      exists e. split; [done|].
      assert (ys = []) as -> by (eapply Hlater; [|exact Hys]; lia).
      pose proof (Hdur _ _ _ Hys He) as Hzero. unfold py_sum in Hzero. simpl in Hzero. lra.
    - split; [rewrite <- Hul; by eapply lookup_lt_Some | eauto]. }
  destruct (lookup_lt_is_Some_2 (cs_selected st) idx) as [xs Hxs]; [lia|].
  destruct (deselect_others_total N idx (cs_deselected st) g Hdl) as [des' Hdes'].
  unfold append_at. rewrite (proj2 (getitem_Ok _ _ _) Hxs). simpl.
  unfold setitem. rewrite Hxs. simpl. rewrite Hdes'. simpl.
  rewrite (proj2 (getitem_Ok _ _ _) He). simpl. rewrite He. simpl.
  eexists. split; [reflexivity|]. simpl.
  exists (e + duration g)%Q. split.
  - apply list_lookup_insert_eq. by eapply lookup_lt_Some.
  - rewrite fmap_app, py_sum_app. simpl. rewrite py_sum_cons.
    change (py_sum []) with 0%Q.
    set (x := (inject_Z (Z.of_nat idx) * t)%Q) in *. lra.
Qed.

Lemma chunk_loop_total_positive (N : Z) (t : Q) : ∀ rest P st,
  (0 < t)%Q →
  Forall (λ g, (0 < duration g)%Q) rest →
  (py_sum (duration <$> P) + py_sum (duration <$> rest) <= inject_Z N * t)%Q →
  chunk_inv (Z.to_nat N) P st →
  (∃ d, cs_duration st !! cs_group_idx st = Some d ∧
        (inject_Z (Z.of_nat (cs_group_idx st)) * t + d <= py_sum (duration <$> P))%Q) →
  ∃ st', for_each (chunk_step N t) st rest = Ok st'.
Proof.
  induction rest as [|g rest IH]; intros P st Ht Hpos Htotal Hinv Hlow; simpl; [eauto|].
  apply Forall_cons in Hpos as [Hg Hpos].
  pose proof (py_sum_nonneg (duration <$> rest)) as Hrest.
  rewrite Forall_fmap in Hrest. specialize (Hrest Hpos).
  rewrite fmap_cons, py_sum_cons in Htotal.
  destruct (chunk_step_total N t P st g) as (st' & Hstep & Hlow'); try done; [lra|].
  rewrite Hstep. simpl. apply (IH (P ++ [g])); try done.
  - rewrite fmap_app, py_sum_app. simpl. rewrite py_sum_cons.
    change (py_sum []) with 0%Q. lra.
  - by eapply chunk_step_inv.
Qed.

(** With exact sums, [duration_based_chunks] returns for every [N >= 1]
    when every group has a positive duration.  This rests on the running
    totals being exact: a positive duration that rounding absorbs into a
    bucket's total leaves the pointer free to run past the last bucket. *)
Lemma duration_based_chunks_total_positive (N : Z) (gs : list InputTestGroup) :
  (1 ≤ N)%Z →
  Forall (λ g, (0 < duration g)%Q) gs →
  ∃ outs, duration_based_chunks N gs = Ok outs.
Proof.
  intros HN Hpos. unfold duration_based_chunks.
  assert (∃ st, chunk_loop N gs = Ok st) as [st Hloop].
  { unfold chunk_loop, true_div. rewrite decide_False by lia. simpl.
    destruct gs as [|g gs']; [simpl; eauto|].
    set (gs := g :: gs') in *. set (total := py_sum (duration <$> gs)).
    assert (0 < total)%Q as Htotal.
    { subst total gs. rewrite fmap_cons, py_sum_cons.
      apply Forall_cons in Hpos as [Hg Hpos].
      pose proof (py_sum_nonneg (duration <$> gs')) as Hrest.
      rewrite Forall_fmap in Hrest. specialize (Hrest Hpos). lra. }
    assert (0 < inject_Z N)%Q as HNq by (rewrite <- (Zlt_Qlt 0); lia).
    apply (chunk_loop_total_positive N _ gs []); try done.
    - by apply Qlt_shift_div_l; [|lra].
    - change (py_sum (duration <$> [])) with 0%Q.
      rewrite Qmult_div_r by lra. fold total. lra.
    - apply chunk_init_inv.
    - exists 0%Q. split.
      + unfold chunk_init. simpl. rewrite init_lookup. by rewrite decide_True by lia.
      + change (cs_group_idx (chunk_init N)) with 0.
        change (py_sum (duration <$> [])) with 0%Q.
        change (inject_Z (Z.of_nat 0)) with 0%Q. rewrite Qmult_0_l. lra. }
  rewrite Hloop. simpl. pose proof (chunk_loop_inv _ _ _ Hloop) as [Hsl Hdl Hul _ _ _ _].
  apply comprehension_total. intros i Hi.
  unfold range in Hi. apply elem_of_seq in Hi as [_ Hi]. simpl in Hi.
  destruct (lookup_lt_is_Some_2 (cs_selected st) i) as [s Hs]; [lia|].
  destruct (lookup_lt_is_Some_2 (cs_deselected st) i) as [d Hd]; [lia|].
  destruct (lookup_lt_is_Some_2 (cs_duration st) i) as [t Ht]; [lia|].
  unfold chunk_output, getitem. rewrite Hs. simpl. rewrite Hd. simpl. rewrite Ht. simpl. eauto.
Qed.

(** ** The examples of the specification *)

Example least_duration_heavy_first :
  least_duration 2 heavy_first
  = Ok [ {| selected := [item "a"];
            deselected := [item "b"; item "c"; item "d"];
            o_duration := (0 + 5)%Q |};
         {| selected := [item "b"; item "c"; item "d"];
            deselected := [item "a"];
            o_duration := (0 + 1 + 1 + 1)%Q |} ].
Proof. reflexivity. Qed.

Example duration_based_chunks_heavy_last :
  duration_based_chunks 2 heavy_last
  = Ok [ {| selected := [item "a"; item "b"; item "c"; item "d"];
            deselected := [];
            o_duration := (0 + 1 + 1 + 1 + 5)%Q |};
         {| selected := [];
            deselected := [item "a"; item "b"; item "c"; item "d"];
            o_duration := 0%Q |} ].
Proof. reflexivity. Qed.

Example split_colons_overlap :
  split_colons "a:::b" = ["a"; ":b"]%string ∧ count_colons "a:::b" = 1 ∧
  split_colons "a.py::C::t" = ["a.py"; "C"; "t"]%string ∧ count_colons "a.py::C::t" = 2.
Proof. by split_and!. Qed.

(** ** The run of [least_duration], step by step *)

(** The cumulative duration of a bucket is the sum of the durations of its
    groups, added from left to right in the order of their assignment. *)
Lemma ld_run_sums (N : Z) (order : list (nat * InputTestGroup)) :
  0 < Z.to_nat N →
  ∃ st, ld_run N order = Ok st ∧ ld_inv (Z.to_nat N) order st ∧
    ∀ j sel d, ld_selected st !! j = Some sel → ld_duration st !! j = Some d →
               d = py_sum (duration <$> sel.*1).
Proof.
  intros Hpos. induction order as [|[k g] order IH] using rev_ind.
  - exists (ld_init N). split_and!; [done | apply ld_init_inv |].
    intros j sel d. simpl. rewrite !init_lookup. case_decide; [|done].
    by intros [= <-] [= <-].
  - destruct IH as (st & Hrun & Hinv & Hsums).
    destruct (ld_step_spec N order st k g Hpos Hinv)
      as (b & s & xs & st' & Hb & Hxs & _ & Hstep & Hsel' & Hdur' & Hinv').
    exists st'. split_and!; [unfold ld_run in *; by rewrite for_each_snoc, Hrun | done |].
    intros j sel d. rewrite Hsel', Hdur'.
    destruct (decide (j = b)) as [->|Hne].
    + rewrite !list_lookup_insert_eq by (by eapply lookup_lt_Some).
      intros [= <-] [= <-]. rewrite !fmap_app.
      change (duration <$> [(g, k)].*1) with [duration g].
      unfold py_sum. rewrite foldl_snoc. f_equal. apply (Hsums _ _ _ Hxs Hb).
    + rewrite !list_lookup_insert_ne by done. apply Hsums.
Qed.

(** What a bucket holds at some point of the run it still holds later. *)
Lemma ld_run_keeps (N : Z) (l1 l2 : list (nat * InputTestGroup)) st1 st2 b sel :
  0 < Z.to_nat N →
  ld_run N l1 = Ok st1 →
  ld_run N (l1 ++ l2) = Ok st2 →
  ld_selected st1 !! b = Some sel →
  ∃ sel', ld_selected st2 !! b = Some sel' ∧ ∀ x, x ∈ sel → x ∈ sel'.
Proof.
  intros Hpos Hrun1. revert st2.
  induction l2 as [|[k g] l2 IH] using rev_ind; intros st2 Hrun2 Hsel.
  - rewrite app_nil_r in Hrun2. assert (st2 = st1) as -> by congruence. eauto.
  - rewrite app_assoc in Hrun2.
    destruct (ld_run_total N (l1 ++ l2) Hpos) as (mid & Hmid & Hinv).
    destruct (IH mid Hmid Hsel) as (sel1 & Hsel1 & Hsub).
    destruct (ld_step_spec N (l1 ++ l2) mid k g Hpos Hinv)
      as (b' & s & xs & st' & _ & Hxs & _ & Hstep & Hsel' & _ & _).
    assert (st2 = st') as ->.
    { unfold ld_run in *. rewrite for_each_snoc, Hmid in Hrun2. simpl in Hrun2.
      change (ld_step N mid (k, g) = Ok st2) in Hrun2. congruence. }
    rewrite Hsel'. destruct (decide (b = b')) as [->|Hne].
    + rewrite list_lookup_insert_eq by (by eapply lookup_lt_Some).
      eexists. split; [done|]. intros x Hx. apply elem_of_app. left.
      assert (xs = sel1) as -> by congruence. by apply Hsub.
    + rewrite list_lookup_insert_ne by done. eauto.
Qed.

Lemma in_bucket_in_output (sel : list (InputTestGroup * nat)) g k t :
  (g, k) ∈ sel → t ∈ tests g → t ∈ _flatten (ld_bucket sel).
Proof.
  intros Hgk Ht. unfold _flatten. apply list_elem_of_In, in_concat.
  exists (tests g). split; [|by apply list_elem_of_In].
  apply list_elem_of_In, list_elem_of_fmap. exists g. split; [done|].
  rewrite ld_bucket_Permutation. apply list_elem_of_fmap. by exists (g, k).
Qed.

(** * The claims *)

(** C3. For every split count [N >= 1] and every input on which the call
    returns, either strategy produces exactly [N] outputs; the [selected]
    lists taken together hold every input item exactly as often as the input
    does, and the [deselected] list of an output holds exactly what the
    other outputs select.  For an input without repeated items this reads:
    every item is in exactly one [selected] list, in the [deselected] list
    of every other output, and not in the [deselected] list of its own. *)
Theorem strategies_cover_items_once (a : Algorithms) (N : Z)
    (gs : list InputTestGroup) (outs : list OutputTestGroup) :
  (1 ≤ N)%Z →
  Algorithms_value a N gs = Ok outs →
  length outs = Z.to_nat N ∧
  concat (selected <$> outs) ≡ₚ _flatten gs ∧
  (∀ i o, outs !! i = Some o → deselected o ≡ₚ concat (selected <$> delete i outs)) ∧
  (NoDup (_flatten gs) → ∀ x, x ∈ _flatten gs →
     ∃ i o, outs !! i = Some o ∧ x ∈ selected o ∧ (x ∉ deselected o) ∧
       ∀ j o', j ≠ i → outs !! j = Some o' → (x ∉ selected o') ∧ x ∈ deselected o').
Proof.
  intros HN H.
  destruct (strategy_buckets a N gs outs HN H) as (buckets & _ & Hlen & Hout & Hcat & _).
  assert (concat (selected <$> outs) ≡ₚ _flatten gs) as Hall.
  { rewrite (selected_of_buckets _ _ _ Hout), <- _flatten_concat.
    by apply _flatten_Permutation. }
  assert (∀ i o, outs !! i = Some o → selected o ++ deselected o ≡ₚ _flatten gs) as Hcompl.
  { intros i o Ho. destruct (Forall2_lookup_l _ _ _ _ _ Hout Ho) as (b & _ & _ & _ & Hb).
    done. }
  assert (∀ i o, outs !! i = Some o →
            deselected o ≡ₚ concat (selected <$> delete i outs)) as Hdes.
  { intros i o Ho. apply (Permutation_app_inv_l (selected o)).
    rewrite (Hcompl _ _ Ho), <- Hall, list_fmap_delete.
    apply concat_delete_Permutation. by rewrite list_lookup_fmap, Ho. }
  split_and!; try done.
  intros Hnd x Hx.
  assert (∀ j o', outs !! j = Some o' → x ∈ deselected o' → x ∉ selected o') as Hexcl.
  { intros j o' Ho' Hin Hsel. specialize (Hcompl _ _ Ho'). rewrite <- Hcompl in Hnd.
    apply NoDup_app in Hnd as (_ & Hdisj & _). by apply (Hdisj x). }
  rewrite <- Hall in Hx. apply list_elem_of_In, in_concat in Hx as (l & Hl & Hxl).
  apply list_elem_of_In, list_elem_of_fmap in Hl as (o & -> & Ho).
  apply list_elem_of_In in Hxl. apply list_elem_of_lookup in Ho as [i Ho].
  exists i, o. split_and!; [done | done | by intros ?; eapply Hexcl |].
  intros j o' Hne Ho'.
  assert (x ∈ deselected o') as Hin.
  { rewrite (Hdes _ _ Ho'). apply list_elem_of_In, in_concat.
    exists (selected o). split; [|by apply list_elem_of_In].
    apply list_elem_of_In, list_elem_of_fmap. exists o. split; [done|].
    destruct (decide (i < j)).
    - apply (list_elem_of_lookup_2 _ i). by rewrite list_lookup_delete_lt.
    - destruct i as [|i]; [lia|]. apply (list_elem_of_lookup_2 _ i).
      by rewrite list_lookup_delete_ge by lia. }
  split; [by eapply Hexcl | done].
Qed.

Lemma strategies_cover_items_once_witness :
  ∃ outs, Algorithms_value Alg_least_duration 2 heavy_first = Ok outs ∧
    length outs = Z.to_nat 2 ∧
    concat (selected <$> outs) ≡ₚ _flatten heavy_first ∧
    (∀ i o, outs !! i = Some o → deselected o ≡ₚ concat (selected <$> delete i outs)) ∧
    (NoDup (_flatten heavy_first) → ∀ x, x ∈ _flatten heavy_first →
       ∃ i o, outs !! i = Some o ∧ x ∈ selected o ∧ (x ∉ deselected o) ∧
         ∀ j o', j ≠ i → outs !! j = Some o' → (x ∉ selected o') ∧ x ∈ deselected o').
Proof.
  eexists. split; [vm_compute; reflexivity|].
  apply (strategies_cover_items_once Alg_least_duration 2 heavy_first);
    [lia | vm_compute; reflexivity].
Defined.



(** C6. For every split count [N >= 1] and every input on which the call
    returns, under either strategy the [selected] list of every output is a
    subsequence of the input item sequence: its items are in their original
    relative order.  It is the flattening of the groups assigned to the
    bucket, which themselves are a subsequence of the input groups;
    [least_duration] gets them so by re-sorting the bucket by original
    index. *)
Theorem strategies_preserve_order (a : Algorithms) (N : Z)
    (gs : list InputTestGroup) (outs : list OutputTestGroup) :
  (1 ≤ N)%Z →
  Algorithms_value a N gs = Ok outs →
  (∀ i o, outs !! i = Some o → selected o `sublist_of` _flatten gs) ∧
  ∃ buckets, assigned a N gs = Ok buckets ∧
    Forall2 (λ o b, selected o = _flatten b ∧ b `sublist_of` gs) outs buckets.
Proof.
  intros HN H.
  destruct (strategy_buckets a N gs outs HN H) as (buckets & Ha & _ & Hout & _ & Hsub).
  assert (Forall2 (λ o b, selected o = _flatten b ∧ b `sublist_of` gs) outs buckets) as Hall.
  { apply Forall2_same_length_lookup_2; [by eapply Forall2_length|].
    intros i o b Ho Hb. split.
    - by destruct (Forall2_lookup_lr _ _ _ _ _ _ Hout Ho Hb) as [? _].
    - rewrite Forall_lookup in Hsub. by eapply Hsub. }
  split; [|by exists buckets].
  intros i o Ho. destruct (Forall2_lookup_l _ _ _ _ _ Hall Ho) as (b & _ & -> & Hb).
  by apply _flatten_sublist.
Qed.

Lemma strategies_preserve_order_witness :
  ∃ outs, Algorithms_value Alg_least_duration 2 heavy_last = Ok outs ∧
    (∀ i o, outs !! i = Some o → selected o `sublist_of` _flatten heavy_last) ∧
    ∃ buckets, assigned Alg_least_duration 2 heavy_last = Ok buckets ∧
      Forall2 (λ o b, selected o = _flatten b ∧ b `sublist_of` heavy_last) outs buckets.
Proof.
  eexists. split; [vm_compute; reflexivity|].
  apply (strategies_preserve_order Alg_least_duration 2 heavy_last);
    [lia | vm_compute; reflexivity].
Defined.

(** C9. For every split count [N >= 1] and every input on which the call
    returns, under either strategy the output durations add up to the sum of
    the input group durations, and the duration of each output is the sum of
    the durations of the groups assigned to its bucket (exactly, durations
    being rationals). *)
Theorem strategies_conserve_duration (a : Algorithms) (N : Z)
    (gs : list InputTestGroup) (outs : list OutputTestGroup) :
  (1 ≤ N)%Z →
  Algorithms_value a N gs = Ok outs →
  (py_sum (o_duration <$> outs) == py_sum (duration <$> gs))%Q ∧
  ∃ buckets, assigned a N gs = Ok buckets ∧
    Forall2 (λ o b, selected o = _flatten b ∧
                    (o_duration o == py_sum (duration <$> b))%Q) outs buckets.
Proof.
  intros HN H.
  destruct (strategy_buckets a N gs outs HN H) as (buckets & Ha & _ & Hout & Hcat & _).
  assert (Forall2 (λ o b, selected o = _flatten b ∧
                          (o_duration o == py_sum (duration <$> b))%Q) outs buckets) as Hall.
  { eapply Forall2_impl; [exact Hout|]. by intros o b (? & ? & _). }
  split; [|by exists buckets].
  rewrite (Forall2_py_sum o_duration (λ b, py_sum (duration <$> b)) outs buckets).
  - transitivity (py_sum (duration <$> concat buckets)).
    + rewrite fmap_concat, py_sum_concat, <- list_fmap_compose. reflexivity.
    + apply py_sum_Permutation. by rewrite Hcat.
  - eapply Forall2_impl; [exact Hall|]. by intros o b [_ ?].
Qed.

Lemma strategies_conserve_duration_witness :
  ∃ outs, Algorithms_value Alg_duration_based_chunks 2 heavy_last = Ok outs ∧
    (py_sum (o_duration <$> outs) == py_sum (duration <$> heavy_last))%Q ∧
    ∃ buckets, assigned Alg_duration_based_chunks 2 heavy_last = Ok buckets ∧
      Forall2 (λ o b, selected o = _flatten b ∧
                      (o_duration o == py_sum (duration <$> b))%Q) outs buckets.
Proof.
  eexists. split; [vm_compute; reflexivity|].
  apply (strategies_conserve_duration Alg_duration_based_chunks 2 heavy_last);
    [lia | vm_compute; reflexivity].
Defined.

(** C5. In [least_duration], for every [N >= 1] and every input, the groups
    are taken in the order of the compound key (duration descending,
    original index ascending): the processing order is a function of the
    input, a rearrangement of the enumerated groups, strictly sorted for
    that key, and the list the sort on that key computes.  The loop of
    [least_duration] runs over that order and the call returns.  At each
    group [(k, g)] of the order, the buckets hold exactly the groups taken
    before it, the cumulative duration of each bucket being the left-to-right
    sum of the durations of its groups; the group goes to a bucket [b] whose
    cumulative duration [s] is least, the lowest-numbered such bucket (every
    bucket below [b] is strictly more loaded); the state after the step is
    the state of the run up to and including this group; and the group is
    still in bucket [b] when the loop ends, so that output [b] of
    [least_duration] selects its tests. *)
Theorem least_duration_greedy_order (N : Z) (gs : list InputTestGroup) :
  (1 ≤ N)%Z →
  sorted_items_with_durations gs ≡ₚ enumerate gs ∧
  StronglySorted compound_lt (sorted_items_with_durations gs) ∧
  sorted_items_with_durations gs = sort_by compound_before (enumerate gs) ∧
  ∃ final outs,
    ld_loop N gs = Ok final ∧
    ld_run N (sorted_items_with_durations gs) = Ok final ∧
    least_duration N gs = Ok outs ∧
    ∀ pre k g post,
      sorted_items_with_durations gs = pre ++ (k, g) :: post →
      ∃ st b s xs st',
        ld_run N pre = Ok st ∧
        concat (ld_selected st) ≡ₚ prod_swap <$> pre ∧
        (∀ j sel d, ld_selected st !! j = Some sel → ld_duration st !! j = Some d →
                    d = py_sum (duration <$> sel.*1)) ∧
        ld_duration st !! b = Some s ∧
        ld_selected st !! b = Some xs ∧
        (∀ j d, ld_duration st !! j = Some d → (s <= d)%Q ∧ (j < b → (s < d)%Q)) ∧
        ld_step N st (k, g) = Ok st' ∧
        ld_run N (pre ++ [(k, g)]) = Ok st' ∧
        ld_selected st' = <[b:=xs ++ [(g, k)]]> (ld_selected st) ∧
        ld_duration st' = <[b:=(s + duration g)%Q]> (ld_duration st) ∧
        (∃ sel, ld_selected final !! b = Some sel ∧ (g, k) ∈ sel) ∧
        (∃ o, outs !! b = Some o ∧ ∀ t, t ∈ tests g → t ∈ selected o).
Proof.
  intros HN.
  assert (0 < Z.to_nat N) as Hpos by lia.
  assert (sorted_items_with_durations gs = sort_by compound_before (enumerate gs)) as Heq.
  { apply stable_sort_is_compound_sort, enumerate_increasing. }
  split_and!; [apply sorted_items_Permutation | | done |].
  { rewrite Heq.
    apply (StronglySorted_strict (in_order compound_before) _ fst).
    - intros x y Hxy Hne. by apply compound_total.
    - rewrite sort_by_Permutation, enumerate_fst. apply NoDup_seq.
    - apply sort_by_sorted; [apply compound_before_asym | apply compound_before_negtrans]. }
  destruct (ld_loop_total N gs HN) as (final & Hloop & _).
  destruct (least_duration_total N gs HN) as [outs Houts].
  exists final, outs. split_and!; [done | done | done |].
  intros pre k g post Horder.
  destruct (ld_run_sums N pre Hpos) as (st & Hrun & Hinv & Hsums).
  destruct (ld_step_spec N pre st k g Hpos Hinv)
    as (b & s & xs & st' & Hb & Hxs & Hmin & Hstep & Hsel' & Hdur' & _).
  assert (ld_run N (pre ++ [(k, g)]) = Ok st') as Hrun'.
  { unfold ld_run in *. by rewrite for_each_snoc, Hrun. }
  assert (∃ sel, ld_selected final !! b = Some sel ∧ (g, k) ∈ sel) as (sel & Hsel & Hgk).
  { destruct (ld_run_keeps N (pre ++ [(k, g)]) post st' final b (xs ++ [(g, k)]) Hpos Hrun')
      as (sel & Hsel & Hsub).
    - rewrite <- app_assoc. simpl. rewrite <- Horder. exact Hloop.
    - rewrite Hsel'. apply list_lookup_insert_eq. by eapply lookup_lt_Some.
    - exists sel. split; [done|]. apply Hsub, elem_of_app. right. left. }
  exists st, b, s, xs, st'.
  split_and!; try done; [apply (li_concat _ _ _ Hinv) | by exists sel |].
  unfold least_duration in Houts. rewrite Hloop in Houts. simpl in Houts.
  apply comprehension_range in Houts as [Hlen Hout].
  destruct (lookup_lt_is_Some_2 outs b) as [o Ho].
  { rewrite Hlen, <- (li_sel_len _ _ _ Hinv). by eapply lookup_lt_Some. }
  exists o. split; [done|]. intros t Ht.
  apply Hout in Ho. unfold ld_output in Ho.
  apply bind_Ok in Ho as (sel0 & Hsel0%getitem_Ok & Ho). cbv zeta in Ho.
  apply bind_Ok in Ho as (des & _ & Ho).
  apply bind_Ok in Ho as (d & _ & Ho).
  injection Ho as <-. simpl. assert (sel0 = sel) as -> by congruence.
  by eapply in_bucket_in_output.
Qed.

Lemma least_duration_greedy_order_witness :
  sorted_items_with_durations heavy_last ≡ₚ enumerate heavy_last ∧
  StronglySorted compound_lt (sorted_items_with_durations heavy_last) ∧
  sorted_items_with_durations heavy_last = sort_by compound_before (enumerate heavy_last) ∧
  ∃ final outs,
    ld_loop 2 heavy_last = Ok final ∧
    ld_run 2 (sorted_items_with_durations heavy_last) = Ok final ∧
    least_duration 2 heavy_last = Ok outs ∧
    ∀ pre k g post,
      sorted_items_with_durations heavy_last = pre ++ (k, g) :: post →
      ∃ st b s xs st',
        ld_run 2 pre = Ok st ∧
        concat (ld_selected st) ≡ₚ prod_swap <$> pre ∧
        (∀ j sel d, ld_selected st !! j = Some sel → ld_duration st !! j = Some d →
                    d = py_sum (duration <$> sel.*1)) ∧
        ld_duration st !! b = Some s ∧
        ld_selected st !! b = Some xs ∧
        (∀ j d, ld_duration st !! j = Some d → (s <= d)%Q ∧ (j < b → (s < d)%Q)) ∧
        ld_step 2 st (k, g) = Ok st' ∧
        ld_run 2 (pre ++ [(k, g)]) = Ok st' ∧
        ld_selected st' = <[b:=xs ++ [(g, k)]]> (ld_selected st) ∧
        ld_duration st' = <[b:=(s + duration g)%Q]> (ld_duration st) ∧
        (∃ sel, ld_selected final !! b = Some sel ∧ (g, k) ∈ sel) ∧
        (∃ o, outs !! b = Some o ∧ ∀ t, t ∈ tests g → t ∈ selected o).
Proof. apply (least_duration_greedy_order 2 heavy_last). lia. Defined.

(** C1. In [duration_based_chunks] the bucket pointer is advanced whenever
    the running total of the current bucket has reached the target; the
    code does not test it against [N - 1].  With [N = 2] and group durations
    [1, 1, 0] the target is [1]; after the first two groups the pointer is
    [1 = N - 1] and bucket [1] holds [1]; at the third group the pointer
    becomes [2] and [selected[2]] is out of range.  A single group of
    duration [0] with [N = 1] does the same at the first group. *)
Theorem duration_based_chunks_pointer_overrun :
  (∃ st, chunk_loop 2 (take 2 trailing_zero) = Ok st ∧
         cs_group_idx st = 1 ∧ cs_duration st !! 1 = Some (0 + 1)%Q ∧
         chunk_step 2 1 st (grp "c" 0) = IndexError) ∧
  duration_based_chunks 2 trailing_zero = IndexError ∧
  duration_based_chunks 1 [grp "a" 0] = IndexError.
Proof.
  split_and!; [|vm_compute; reflexivity..].
  eexists. split; [vm_compute; reflexivity|]. by vm_compute.
Qed.

(** C2, as stated, fails: neither strategy checks the split count, and with
    no group to assign a non-positive count returns an empty list of
    outputs. *)
Lemma nonpositive_splits_not_rejected :
  least_duration 0 [] = Ok [] ∧
  duration_based_chunks (-1) [] = Ok [] ∧
  ¬ (∀ (a : Algorithms) (N : Z) (gs : list InputTestGroup),
       (N ≤ 0)%Z → raises (Algorithms_value a N gs)).
Proof.
  split_and!; [vm_compute; reflexivity..|].
  intros H. by apply (H Alg_least_duration 0%Z [] ltac:(lia) []).
Qed.

(** C2, amended. With a non-positive split count [N]:
    [duration_based_chunks] with [N = 0] raises a division error for every
    input, before any group is looked at; [duration_based_chunks] with
    [N < 0] and [least_duration] with [N <= 0] return an empty list of
    outputs when there is no group and raise an index error at the first
    group otherwise. *)
Theorem nonpositive_splits (N : Z) (gs : list InputTestGroup) :
  (N ≤ 0)%Z →
  (N = 0%Z → duration_based_chunks N gs = ZeroDivisionError) ∧
  ((N < 0)%Z → duration_based_chunks N gs = match gs with [] => Ok [] | _ => IndexError end) ∧
  least_duration N gs = match gs with [] => Ok [] | _ => IndexError end.
Proof.
  intros HN. assert (range N = []) as Hrange.
  { unfold range. by replace (Z.to_nat N) with 0 by lia. }
  split_and!.
  - intros ->. done.
  - intros Hneg. unfold duration_based_chunks, chunk_loop, true_div.
    rewrite decide_False by lia. simpl. unfold chunk_init. rewrite Hrange.
    by destruct gs.
  - unfold least_duration, ld_loop, ld_run, ld_init. rewrite Hrange.
    pose proof (Permutation_length (sorted_items_Permutation gs)) as Hlen.
    unfold enumerate in Hlen. rewrite length_imap in Hlen.
    destruct gs as [|g gs'].
    + done.
    + destruct (sorted_items_with_durations (g :: gs')) as [|[k x] order]; [done|].
      done.
Qed.

Lemma nonpositive_splits_witness :
  ((0 ≤ 0)%Z ∧ duration_based_chunks 0 heavy_first = ZeroDivisionError ∧
   least_duration 0 heavy_first = IndexError) ∧
  ((-1 ≤ 0)%Z ∧ duration_based_chunks (-1) heavy_first = IndexError ∧
   least_duration (-1) [] = Ok []).
Proof.
  split.
  - destruct (nonpositive_splits 0 heavy_first ltac:(lia)) as (H0 & _ & Hld).
    split; [lia|]. split; [by apply H0 | exact Hld].
  - destruct (nonpositive_splits (-1) heavy_first ltac:(lia)) as (_ & Hneg & _).
    destruct (nonpositive_splits (-1) [] ltac:(lia)) as (_ & _ & Hld).
    split; [lia|]. split; [apply Hneg; lia | exact Hld].
Defined.

(** C7. The duration estimator, for every item list and every duration
    record: the record is first cut down to the ids of the current items;
    the average is the sum of the remaining durations over their number, and
    [1] when none remains; the result has one pair per item, in the order of
    the items, whose duration is the recorded one when the id is in the
    filtered record -- that is, in the record -- and the average otherwise. *)
Theorem estimator_filters_then_averages (items : list Item) (durations : gmap string Q) :
  let relevant := _remove_irrelevant_durations items durations in
  let avg := _get_avg_duration_per_test relevant in
  relevant = filter (λ entry, entry.1 ∈ nodeid <$> items) durations ∧
  (relevant = ∅ → avg = 1%Q) ∧
  (relevant ≠ ∅ →
   avg = (py_sum (map_to_list relevant).*2 / inject_Z (Z.of_nat (size relevant)))%Q) ∧
  _get_items_with_durations items durations = estimated_durations items durations ∧
  (_get_items_with_durations items durations).*1 = items ∧
  ∀ i it, items !! i = Some it →
    relevant !! nodeid it = durations !! nodeid it ∧
    _get_items_with_durations items durations !! i
    = Some (it, match durations !! nodeid it with Some d => d | None => avg end).
Proof.
  intros relevant avg. split_and!.
  - apply _remove_irrelevant_durations_filter.
  - intros Hempty. subst avg. unfold _get_avg_duration_per_test.
    apply map_size_empty_iff in Hempty. by rewrite decide_False by lia.
  - intros Hne. subst avg. unfold _get_avg_duration_per_test.
    by rewrite decide_True by (by apply map_size_non_empty_iff).
  - unfold _get_items_with_durations, estimated_durations.
    rewrite <- _remove_irrelevant_durations_filter.
    apply list_fmap_ext. intros _ it _. f_equal.
    by rewrite _get_avg_duration_per_test_average.
  - unfold _get_items_with_durations. rewrite <- list_fmap_compose. apply list_fmap_id.
  - intros i it Hit.
    assert (relevant !! nodeid it = durations !! nodeid it) as Hrel.
    { subst relevant. rewrite _remove_irrelevant_durations_lookup.
      rewrite decide_True; [done|]. apply list_elem_of_fmap. exists it.
      split; [done | by eapply list_elem_of_lookup_2]. }
    split; [done|]. unfold _get_items_with_durations.
    rewrite list_lookup_fmap, Hit. simpl. fold relevant. fold avg. rewrite Hrel.
    by destruct (durations !! nodeid it).
Qed.

(** C8. Per-file grouping (any mode but ["test"]) decomposes each id with
    [split('::')] and raises exactly when some item's id does not hold
    exactly one occurrence of the separator, occurrences being counted
    without overlap from left to right as [split] cuts them; when every id
    holds exactly one, each id is cut into its two parts and the grouping
    returns. *)
Theorem per_file_grouping_fails_iff (group_type : string)
    (items : list Item) (durations : gmap string Q) :
  group_type ≠ "test"%string →
  (group_tests group_type items durations = ValueError ↔
   ∃ it, it ∈ items ∧ count_colons (nodeid it) ≠ 1) ∧
  ((∃ gs, group_tests group_type items durations = Ok gs) ↔
   ∀ it, it ∈ items → count_colons (nodeid it) = 1) ∧
  (∀ it, count_colons (nodeid it) = 1 →
     ∃ file rest, split_colons (nodeid it) = [file; rest] ∧
                  nodeid it = String.append file (String.append "::" rest) ∧
                  file_of it = Ok file) ∧
  (∀ it, count_colons (nodeid it) ≠ 1 → file_of it = ValueError).
Proof.
  intros Hmode. unfold group_tests. rewrite decide_False by done.
  split_and!; [| |apply file_of_Ok|apply file_of_ValueError].
  - destruct (group_by_file_cases items durations) as [[Hall [gs ->]]|[Hex ->]].
    + split; [done|]. intros (it & Hit & Hcount). by apply Hall in Hit.
    + done.
  - destruct (group_by_file_cases items durations) as [[Hall [gs ->]]|[Hex ->]].
    + split; [done | eauto].
    + split; [by intros [gs ?]|]. intros Hall. destruct Hex as (it & Hit & Hcount).
      by apply Hall in Hit.
Qed.

Lemma per_file_grouping_fails_iff_witness :
  "file"%string ≠ "test"%string ∧
  (group_tests "file" [item "a.py::t"; item "b.py"] ∅ = ValueError ↔
   ∃ it, it ∈ [item "a.py::t"; item "b.py"] ∧ count_colons (nodeid it) ≠ 1).
Proof.
  split; [done|].
  apply (per_file_grouping_fails_iff "file" [item "a.py::t"; item "b.py"] ∅). done.
Defined.

(** C10. [group_tests] checks no mode name: for every mode other than
    exactly ["test"], misspelt or unknown ones included, it does the
    per-file grouping, with the very result of any other such mode; no
    error comes from the mode -- the call returns whenever every id holds one
    separator, and raises the decomposition error otherwise; the mode
    ["test"] alone gives one group per item. *)
Theorem group_tests_accepts_any_mode (group_type : string)
    (items : list Item) (durations : gmap string Q) :
  group_type ≠ "test"%string →
  group_tests group_type items durations
  = group_by_file (_get_items_with_durations items durations) ∧
  group_tests group_type items durations = group_tests "file" items durations ∧
  ((∃ gs, group_tests group_type items durations = Ok gs) ∨
   group_tests group_type items durations = ValueError ∧
   ∃ it, it ∈ items ∧ count_colons (nodeid it) ≠ 1) ∧
  group_tests "test" items durations
  = Ok (group_by_test (_get_items_with_durations items durations)).
Proof.
  intros Hmode. unfold group_tests. rewrite decide_False by done.
  rewrite (decide_False (P := "file"%string = "test"%string)) by done.
  rewrite (decide_True (P := "test"%string = "test"%string)) by done.
  split_and!; try done.
  destruct (group_by_file_cases items durations) as [[_ Hok]|[Hex Herr]]; auto.
Qed.

Lemma group_tests_accepts_any_mode_witness :
  "tset"%string ≠ "test"%string ∧
  group_tests "tset" [item "a.py::t1"; item "b.py::t"; item "a.py::t2"] ∅
  = group_tests "file" [item "a.py::t1"; item "b.py::t"; item "a.py::t2"] ∅.
Proof.
  split; [done|].
  apply (group_tests_accepts_any_mode "tset"
           [item "a.py::t1"; item "b.py::t"; item "a.py::t2"] ∅). done.
Defined.

(** * Further properties *)

(** ** Outputs of [least_duration] and the final state *)

Lemma least_duration_Ok splits gs outs :
  (1 ≤ splits)%Z →
  least_duration splits gs = Ok outs →
  ∃ st, ld_loop splits gs = Ok st ∧
        ld_inv (Z.to_nat splits) (sorted_items_with_durations gs) st ∧
        length outs = Z.to_nat splits ∧
        ∀ i o, outs !! i = Some o →
          ∃ sel des, ld_selected st !! i = Some sel ∧ ld_deselected st !! i = Some des ∧
                     ld_duration st !! i = Some (o_duration o) ∧
                     selected o = _flatten (ld_bucket sel) ∧ deselected o = _flatten des.
Proof.
  intros HN H. unfold least_duration in H.
  destruct (ld_loop_total splits gs HN) as (st & Hloop & Hinv).
  rewrite Hloop in H. simpl in H. apply comprehension_range in H as [Hlen Hout].
  exists st. split_and!; try done.
  intros i o Ho. apply Hout in Ho. unfold ld_output in Ho.
  apply bind_Ok in Ho as (sel & Hsel%getitem_Ok & Ho). cbv zeta in Ho.
  apply bind_Ok in Ho as (des & Hdes%getitem_Ok & Ho).
  apply bind_Ok in Ho as (d & Hd%getitem_Ok & Ho).
  injection Ho as <-. simpl. eauto 10.
Qed.

Lemma comprehension_constant {B} (f : nat → result B) (c : B) (k : nat) : ∀ a,
  (∀ i, a ≤ i < a + k → f i = Ok c) →
  comprehension f (seq a k) = Ok (replicate k c).
Proof.
  induction k as [|k IH]; intros a H; simpl; [done|].
  rewrite H by lia. simpl. rewrite (IH (S a)) by (intros; apply H; lia). done.
Qed.


(** X1. [least_duration] raises nothing for a split count [N >= 1]: whatever
    the groups and their durations, it returns [N] outputs. *)
Theorem least_duration_returns (N : Z) (gs : list InputTestGroup) :
  (1 ≤ N)%Z →
  ∃ outs, least_duration N gs = Ok outs ∧ length outs = Z.to_nat N.
Proof.
  intros HN. destruct (least_duration_total N gs HN) as [outs Houts].
  exists outs. split; [done|].
  by destruct (least_duration_Ok _ _ _ HN Houts) as (_ & _ & _ & Hlen & _).
Qed.

Lemma least_duration_returns_witness :
  (1 ≤ 3)%Z ∧ ∃ outs, least_duration 3 trailing_zero = Ok outs ∧ length outs = Z.to_nat 3.
Proof. split; [lia|]. apply (least_duration_returns 3 trailing_zero). lia. Defined.

(** The pointer of [duration_based_chunks] moves by one bucket at most per
    group: with more buckets than groups it stays in range, whatever the
    comparisons with the target give. *)
Lemma chunk_loop_total_spare (N : Z) (t : Q) : ∀ rest P st,
  length P + length rest < Z.to_nat N →
  chunk_inv (Z.to_nat N) P st →
  cs_group_idx st ≤ length P →
  ∃ st', for_each (chunk_step N t) st rest = Ok st'.
Proof.
  induction rest as [|g rest IH]; intros P st Hlen Hinv Hidx; simpl; [eauto|].
  simpl in Hlen. pose proof Hinv as [Hsl Hdl Hul _ _ _ _].
  assert (∃ st', chunk_step N t st g = Ok st' ∧ cs_group_idx st' ≤ S (cs_group_idx st))
    as (st' & Hstep & Hidx').
  { unfold chunk_step.
    destruct (lookup_lt_is_Some_2 (cs_duration st) (cs_group_idx st)) as [d Hd]; [lia|].
    rewrite (proj2 (getitem_Ok _ _ _) Hd). simpl.
    set (idx := if Qle_bool t d then S (cs_group_idx st) else cs_group_idx st).
    assert (cs_group_idx st ≤ idx ≤ S (cs_group_idx st)) as Hbound
      by (subst idx; destruct (Qle_bool t d); lia).
    destruct (lookup_lt_is_Some_2 (cs_selected st) idx) as [xs Hxs]; [lia|].
    destruct (lookup_lt_is_Some_2 (cs_duration st) idx) as [e He]; [lia|].
    destruct (deselect_others_total N idx (cs_deselected st) g Hdl) as [des' Hdes'].
    unfold append_at. rewrite (proj2 (getitem_Ok _ _ _) Hxs). simpl.
    unfold setitem. rewrite Hxs. simpl. rewrite Hdes'. simpl.
    rewrite (proj2 (getitem_Ok _ _ _) He). simpl. rewrite He. simpl.
    eexists. split; [reflexivity|]. simpl. lia. }
  rewrite Hstep. simpl. apply (IH (P ++ [g])).
  - rewrite length_app. simpl. lia.
  - by eapply chunk_step_inv.
  - rewrite length_app. simpl. lia.
Qed.

(** X2. [duration_based_chunks] raises nothing when there are more buckets
    than groups: the pointer starts at bucket [0] and moves by one bucket at
    most per group, so with fewer than [N] groups every bucket it reaches
    exists, whatever the durations are, and the call returns [N] outputs. *)
Theorem duration_based_chunks_returns_with_spare_bucket (N : Z)
    (gs : list InputTestGroup) :
  (Z.of_nat (length gs) < N)%Z →
  ∃ outs, duration_based_chunks N gs = Ok outs ∧ length outs = Z.to_nat N.
Proof.
  intros HN. unfold duration_based_chunks.
  assert (∃ st, chunk_loop N gs = Ok st) as [st Hloop].
  { unfold chunk_loop, true_div. rewrite decide_False by lia. simpl.
    apply (chunk_loop_total_spare N _ gs []); [simpl; lia | apply chunk_init_inv | simpl; lia]. }
  rewrite Hloop. simpl. pose proof (chunk_loop_inv _ _ _ Hloop) as [Hsl Hdl Hul _ _ _ _].
  destruct (comprehension_total (chunk_output st) (range N)) as [outs Houts].
  { intros i Hi. unfold range in Hi. apply elem_of_seq in Hi as [_ Hi]. simpl in Hi.
    destruct (lookup_lt_is_Some_2 (cs_selected st) i) as [s Hs]; [lia|].
    destruct (lookup_lt_is_Some_2 (cs_deselected st) i) as [d Hd]; [lia|].
    destruct (lookup_lt_is_Some_2 (cs_duration st) i) as [t Ht]; [lia|].
    unfold chunk_output, getitem. rewrite Hs. simpl. rewrite Hd. simpl. rewrite Ht. simpl.
    eauto. }
  exists outs. split; [done|]. by apply comprehension_range in Houts as [Hlen _].
Qed.

Lemma duration_based_chunks_returns_with_spare_bucket_witness :
  (Z.of_nat (length trailing_zero) < 4)%Z ∧
  ∃ outs, duration_based_chunks 4 trailing_zero = Ok outs ∧ length outs = Z.to_nat 4.
Proof.
  split; [simpl; lia|].
  apply (duration_based_chunks_returns_with_spare_bucket 4 trailing_zero). simpl; lia.
Defined.

(** X3. With no group to assign and a split count [N >= 1], either strategy
    returns [N] outputs that select nothing, deselect nothing and have
    duration [0]. *)
Theorem strategies_on_no_groups (a : Algorithms) (N : Z) :
  (1 ≤ N)%Z →
  Algorithms_value a N [] = Ok (replicate (Z.to_nat N) empty_output).
Proof.
  intros HN. destruct a; simpl.
  - unfold duration_based_chunks, chunk_loop, true_div.
    rewrite decide_False by lia. simpl. unfold range.
    apply comprehension_constant. intros i Hi.
    unfold chunk_output, chunk_init, getitem. simpl.
    rewrite !init_lookup, !decide_True by lia. done.
  - unfold least_duration, ld_loop, ld_run. simpl. unfold range.
    apply comprehension_constant. intros i Hi.
    unfold ld_output, ld_init, getitem. simpl.
    rewrite !init_lookup, !decide_True by lia. done.
Qed.

Lemma strategies_on_no_groups_witness :
  (1 ≤ 2)%Z ∧
  Algorithms_value Alg_duration_based_chunks 2 [] = Ok (replicate (Z.to_nat 2) empty_output).
Proof. split; [lia|]. apply (strategies_on_no_groups Alg_duration_based_chunks 2). lia. Defined.



(** ** [least_duration] with at least as many buckets as groups *)

Lemma init_replicate {A} (x : A) (n : Z) : (λ _, x) <$> range n = replicate (Z.to_nat n) x.
Proof.
  apply list_eq. intros i. rewrite init_lookup. case_decide.
  - by rewrite lookup_replicate_2.
  - symmetry. apply lookup_replicate_None. lia.
Qed.

Lemma insert_first_spare {A} (l : list A) (k m : nat) (x y : A) :
  k = length l →
  0 < m →
  <[k:=y]> (l ++ replicate m x) = (l ++ [y]) ++ replicate (m - 1) x.
Proof.
  intros -> Hm. rewrite insert_app_r_alt by lia. rewrite Nat.sub_diag.
  destruct m as [|m]; [lia|]. simpl. rewrite Nat.sub_0_r. by rewrite <- app_assoc.
Qed.

(** While buckets are left over and the durations are positive, the next
    group goes to the first bucket still empty. *)
Lemma ld_run_one_per_bucket (N : Z) (order : list (nat * InputTestGroup)) :
  length order ≤ Z.to_nat N →
  Forall (λ kg, (0 < duration kg.2)%Q) order →
  ∃ st, ld_run N order = Ok st ∧ ld_inv (Z.to_nat N) order st ∧
    ld_selected st
    = ((λ kg, [(kg.2, kg.1)]) <$> order) ++ replicate (Z.to_nat N - length order) [] ∧
    ld_duration st
    = ((λ kg, (0 + duration kg.2)%Q) <$> order) ++ replicate (Z.to_nat N - length order) 0%Q.
Proof.
  induction order as [|[k g] order IH] using rev_ind; intros Hlen Hall.
  - exists (ld_init N). split_and!; [done | apply ld_init_inv | |]; simpl;
      rewrite Nat.sub_0_r; apply init_replicate.
  - rewrite length_app in Hlen. simpl in Hlen.
    apply Forall_app in Hall as [Hall Hg]. apply Forall_inv in Hg. simpl in Hg.
    destruct IH as (st & Hrun & Hinv & Hsel & Hdur); [lia | done |].
    set (m := length order) in *. set (n := Z.to_nat N) in *.
    destruct (ld_step_spec N order st k g ltac:(lia) Hinv)
      as (b & s & xs & st' & Hb & Hxs & Hmin & Hstep & Hsel' & Hdur' & Hinv').
    assert (ld_duration st !! m = Some 0%Q) as Hm.
    { rewrite Hdur, lookup_app_r by (rewrite length_fmap; lia).
      rewrite length_fmap. apply lookup_replicate_2. lia. }
    destruct (Hmin _ _ Hm) as [Hle Hlow].
    assert (b = m) as ->.
    { destruct (decide (b < m)) as [Hlt|Hge].
      - exfalso. rewrite Hdur, lookup_app_l in Hb by (rewrite length_fmap; lia).
        rewrite list_lookup_fmap in Hb.
        destruct (order !! b) as [[k' g']|] eqn:E; simpl in Hb; [|done].
        injection Hb as <-. rewrite Forall_lookup in Hall.
        specialize (Hall _ _ E). simpl in Hall. lra.
      - destruct (decide (m < b)) as [Hgt|?]; [|lia]. exfalso.
        specialize (Hlow Hgt).
        rewrite Hdur, lookup_app_r in Hb by (rewrite length_fmap; lia).
        apply lookup_replicate_1 in Hb as [-> _]. lra. }
    assert (s = 0%Q) as -> by congruence.
    assert (xs = []) as ->.
    { rewrite Hsel, lookup_app_r in Hxs by (rewrite length_fmap; lia).
      by apply lookup_replicate_1 in Hxs as [-> _]. }
    exists st'. split_and!; [unfold ld_run in *; by rewrite for_each_snoc, Hrun | done | |].
    + rewrite Hsel', Hsel, fmap_app, length_app. simpl.
      rewrite insert_first_spare by (rewrite ?length_fmap; lia).
      do 2 f_equal. lia.
    + rewrite Hdur', Hdur, fmap_app, length_app. simpl.
      rewrite insert_first_spare by (rewrite ?length_fmap; lia).
      do 2 f_equal. lia.
Qed.

(** X6. With at least as many buckets as groups and positive durations,
    [least_duration] gives every group a bucket of its own: output [i]
    selects the tests of the [i]-th group in processing order (heaviest
    first) and has its duration, and the outputs beyond the number of groups
    select nothing and have duration [0]. *)
Theorem least_duration_one_group_per_bucket (N : Z)
    (gs : list InputTestGroup) (outs : list OutputTestGroup) :
  (Z.of_nat (length gs) ≤ N)%Z →
  Forall (λ g, (0 < duration g)%Q) gs →
  least_duration N gs = Ok outs →
  length outs = Z.to_nat N ∧
  ∀ i o, outs !! i = Some o →
    match sorted_items_with_durations gs !! i with
    | Some (k, g) =>
        gs !! k = Some g ∧ selected o = tests g ∧ (o_duration o == duration g)%Q
    | None => selected o = [] ∧ o_duration o = 0%Q
    end.
Proof.
  intros HN Hall H.
  pose proof (Permutation_length (sorted_items_Permutation gs)) as Hlen.
  unfold enumerate in Hlen. rewrite length_imap in Hlen.
  assert (∀ i k g, sorted_items_with_durations gs !! i = Some (k, g) → gs !! k = Some g)
    as Hfrom.
  { intros i k g Hi. apply list_elem_of_lookup_2 in Hi.
    rewrite sorted_items_Permutation in Hi.
    apply list_elem_of_lookup in Hi as [j Hj]. by apply enumerate_lookup in Hj as [-> Hj]. }
  destruct (ld_run_one_per_bucket N (sorted_items_with_durations gs))
    as (st & Hrun & _ & Hsel & Hdur); [lia | |].
  { apply Forall_lookup. intros i [k g] Hi. simpl. rewrite Forall_forall in Hall.
    apply Hall. eapply list_elem_of_lookup_2, Hfrom, Hi. }
  unfold least_duration, ld_loop in H. rewrite Hrun in H. simpl in H.
  apply comprehension_range in H as [Hlen' Hout]. split; [done|].
  intros i o Ho. apply Hout in Ho. unfold ld_output in Ho.
  apply bind_Ok in Ho as (sel & Hi%getitem_Ok & Ho). cbv zeta in Ho.
  apply bind_Ok in Ho as (des & _ & Ho).
  apply bind_Ok in Ho as (d & Hd%getitem_Ok & Ho).
  injection Ho as <-. simpl. rewrite Hsel in Hi. rewrite Hdur in Hd.
  destruct (sorted_items_with_durations gs !! i) as [[k g]|] eqn:E.
  - pose proof (lookup_lt_Some _ _ _ E) as Hlt.
    rewrite lookup_app_l, list_lookup_fmap, E in Hi by (rewrite length_fmap; lia).
    rewrite lookup_app_l, list_lookup_fmap, E in Hd by (rewrite length_fmap; lia).
    injection Hi as <-. injection Hd as <-. simpl.
    split_and!; [by eapply Hfrom | unfold _flatten; simpl; by rewrite app_nil_r | lra].
  - apply lookup_ge_None in E.
    rewrite lookup_app_r in Hi by (rewrite length_fmap; lia).
    rewrite lookup_app_r in Hd by (rewrite length_fmap; lia).
    apply lookup_replicate_1 in Hi as [-> _]. apply lookup_replicate_1 in Hd as [-> _].
    done.
Qed.

Lemma least_duration_one_group_per_bucket_witness :
  ∃ outs, (Z.of_nat (length heavy_last) ≤ 5)%Z ∧
    Forall (λ g, (0 < duration g)%Q) heavy_last ∧
    least_duration 5 heavy_last = Ok outs ∧
    length outs = Z.to_nat 5 ∧
    ∀ i o, outs !! i = Some o →
      match sorted_items_with_durations heavy_last !! i with
      | Some (k, g) =>
          heavy_last !! k = Some g ∧ selected o = tests g ∧ (o_duration o == duration g)%Q
      | None => selected o = [] ∧ o_duration o = 0%Q
      end.
Proof.
  assert (Forall (λ g, (0 < duration g)%Q) heavy_last) as Hall by (repeat constructor).
  eexists. split; [simpl; lia|]. split; [exact Hall|]. split; [vm_compute; reflexivity|].
  apply (least_duration_one_group_per_bucket 5 heavy_last);
    [simpl; lia | exact Hall | vm_compute; reflexivity].
Defined.

(** ** Bucket boundaries of [duration_based_chunks] *)

Lemma chunk_step_closed splits t st group st' :
  closed_buckets_full t st →
  chunk_step splits t st group = Ok st' →
  closed_buckets_full t st'.
Proof.
  intros Hclosed Hstep. unfold chunk_step in Hstep.
  apply bind_Ok in Hstep as (d & Hd%getitem_Ok & Hstep). cbv zeta in Hstep.
  apply bind_Ok in Hstep as (sel' & _ & Hstep).
  apply bind_Ok in Hstep as (des' & _ & Hstep).
  apply bind_Ok in Hstep as (d' & _ & Hstep).
  apply bind_Ok in Hstep as (dur' & Hdur'%setitem_Ok & Hstep).
  destruct Hdur' as [_ ->]. injection Hstep as <-.
  intros j e. simpl. destruct (Qle_bool t d) eqn:E; intros Hj.
  - rewrite list_lookup_insert_ne by lia.
    destruct (decide (j = cs_group_idx st)) as [->|Hne].
    + rewrite Hd. intros [= <-]. by apply Qle_bool_iff.
    + apply Hclosed. lia.
  - rewrite list_lookup_insert_ne by lia. by apply Hclosed.
Qed.

Lemma chunk_loop_closed splits gs st :
  chunk_loop splits gs = Ok st →
  closed_buckets_full (py_sum (duration <$> gs) / inject_Z splits)%Q st.
Proof.
  unfold chunk_loop, true_div. case_decide; [done|]. simpl.
  set (t := (py_sum (duration <$> gs) / inject_Z splits)%Q).
  apply (for_each_invariant _ (λ _, closed_buckets_full t)
           (λ _ s x s', chunk_step_closed splits t s x s') gs []).
  intros j d Hj. simpl in Hj. lia.
Qed.

(** X7. [duration_based_chunks] leaves no bucket short: when the call
    returns, every output that comes before an output with selected items
    has a duration of at least the target, the total duration over [N]. *)
Theorem duration_based_chunks_closed_buckets_reach_target (N : Z)
    (gs : list InputTestGroup) (outs : list OutputTestGroup) :
  duration_based_chunks N gs = Ok outs →
  ∀ i j o o', i < j → outs !! i = Some o → outs !! j = Some o' →
    selected o' ≠ [] →
    (py_sum (duration <$> gs) / inject_Z N <= o_duration o)%Q.
Proof.
  intros H i j o o' Hij Ho Ho' Hsel.
  apply duration_based_chunks_Ok in H as (st & Hloop & Hinv & _ & _ & Hout).
  pose proof (chunk_loop_closed _ _ _ Hloop) as Hclosed.
  destruct (Hout _ _ Ho) as (_ & _ & _ & _ & Hd & _).
  destruct (Hout _ _ Ho') as (sel' & _ & Hsel' & _ & _ & Hflat & _).
  apply (Hclosed i); [|done].
  destruct (decide (j ≤ cs_group_idx st)) as [?|Hgt]; [lia|]. exfalso.
  apply Hsel. rewrite Hflat.
  by rewrite (ci_later _ _ _ Hinv j sel') by (done || lia).
Qed.

Lemma duration_based_chunks_closed_buckets_reach_target_witness :
  ∃ outs, duration_based_chunks 2 heavy_first = Ok outs ∧
    ∀ i j o o', i < j → outs !! i = Some o → outs !! j = Some o' →
      selected o' ≠ [] →
      (py_sum (duration <$> heavy_first) / inject_Z 2 <= o_duration o)%Q.
Proof.
  eexists. split; [vm_compute; reflexivity|].
  apply (duration_based_chunks_closed_buckets_reach_target 2 heavy_first).
  vm_compute; reflexivity.
Defined.

(** ** More on the duration estimator *)

Lemma py_sum_pos (xs : list Q) :
  Forall (λ x, (0 < x)%Q) xs → xs ≠ [] → (0 < py_sum xs)%Q.
Proof.
  intros Hall Hne. destruct xs as [|x xs]; [done|].
  apply Forall_cons in Hall as [Hx Hall]. rewrite py_sum_cons.
  pose proof (py_sum_nonneg xs Hall). lra.
Qed.

(** X8. The estimator reads the record only at the ids of the current
    items: two records that agree on those ids give the same estimates,
    whatever other entries they hold. *)
Theorem estimator_ignores_stale_entries (items : list Item)
    (durations1 durations2 : gmap string Q) :
  (∀ it, it ∈ items → durations1 !! nodeid it = durations2 !! nodeid it) →
  _get_items_with_durations items durations1 = _get_items_with_durations items durations2.
Proof.
  intros Hagree.
  assert (_remove_irrelevant_durations items durations1
          = _remove_irrelevant_durations items durations2) as Heq.
  { apply map_eq. intros id. rewrite !_remove_irrelevant_durations_lookup.
    case_decide as Hin; [|done].
    apply list_elem_of_fmap in Hin as (it & -> & Hit). by apply Hagree. }
  unfold _get_items_with_durations. by rewrite Heq.
Qed.

Lemma estimator_ignores_stale_entries_witness :
  (∀ it, it ∈ [item "a.py::t"] →
     ({["a.py::t" := 2%Q]} : gmap string Q) !! nodeid it
     = ({["a.py::t" := 2%Q; "gone.py::t" := 9%Q]} : gmap string Q) !! nodeid it) ∧
  _get_items_with_durations [item "a.py::t"] {["a.py::t" := 2%Q]}
  = _get_items_with_durations [item "a.py::t"] {["a.py::t" := 2%Q; "gone.py::t" := 9%Q]}.
Proof.
  assert (∀ it, it ∈ [item "a.py::t"] →
     ({["a.py::t" := 2%Q]} : gmap string Q) !! nodeid it
     = ({["a.py::t" := 2%Q; "gone.py::t" := 9%Q]} : gmap string Q) !! nodeid it) as H.
  { intros it ->%list_elem_of_singleton. reflexivity. }
  split; [exact H|]. apply (estimator_ignores_stale_entries _ _ _ H).
Defined.

(** X9. Without history for the current items -- an empty record, or one
    that holds stale ids only -- every item is given the duration [1]. *)
Theorem estimator_without_history (items : list Item) (durations : gmap string Q) :
  (∀ it, it ∈ items → durations !! nodeid it = None) →
  _get_items_with_durations items durations = (λ it, (it, 1%Q)) <$> items.
Proof.
  intros Hnone.
  assert (_remove_irrelevant_durations items durations = ∅) as Hempty.
  { apply map_eq. intros id. rewrite _remove_irrelevant_durations_lookup, lookup_empty.
    case_decide as Hin; [|done].
    apply list_elem_of_fmap in Hin as (it & -> & Hit). by apply Hnone. }
  unfold _get_items_with_durations. rewrite Hempty.
  apply list_fmap_ext. intros _ it _. by rewrite lookup_empty.
Qed.

Lemma estimator_without_history_witness :
  (∀ it, it ∈ [item "a.py::t"; item "b.py::t"] →
     ({["gone.py::t" := 9%Q]} : gmap string Q) !! nodeid it = None) ∧
  _get_items_with_durations [item "a.py::t"; item "b.py::t"] {["gone.py::t" := 9%Q]}
  = (λ it, (it, 1%Q)) <$> [item "a.py::t"; item "b.py::t"].
Proof.
  assert (∀ it, it ∈ [item "a.py::t"; item "b.py::t"] →
     ({["gone.py::t" := 9%Q]} : gmap string Q) !! nodeid it = None) as H.
  { intros it Hit. repeat (apply elem_of_cons in Hit as [->|Hit]; [reflexivity|]).
    by apply elem_of_nil in Hit. }
  split; [exact H|]. apply (estimator_without_history _ _ H).
Defined.

Lemma estimates_positive (items : list Item) (durations : gmap string Q) :
  (∀ it d, it ∈ items → durations !! nodeid it = Some d → (0 < d)%Q) →
  Forall (λ p, (0 < p.2)%Q) (_get_items_with_durations items durations).
Proof.
  intros Hpos. unfold _get_items_with_durations.
  set (relevant := _remove_irrelevant_durations items durations).
  assert (∀ id d, relevant !! id = Some d → (0 < d)%Q) as Hrel.
  { intros id d. subst relevant. rewrite _remove_irrelevant_durations_lookup.
    case_decide as Hin; [|done].
    apply list_elem_of_fmap in Hin as (it & -> & Hit). by apply Hpos. }
  assert (0 < _get_avg_duration_per_test relevant)%Q as Havg.
  { unfold _get_avg_duration_per_test. case_decide as Hsize; [|lra].
    apply Qlt_shift_div_l.
    - rewrite <- (Zlt_Qlt 0). lia.
    - rewrite Qmult_0_l. apply py_sum_pos.
      + unfold dict_values. apply Forall_fmap, Forall_forall.
        intros [id d] Hin%elem_of_map_to_list. simpl. by eapply Hrel.
      + unfold dict_values. intros Hnil%fmap_nil_inv.
        apply map_to_list_empty_iff in Hnil. rewrite Hnil, map_size_empty in Hsize. done. }
  apply Forall_fmap, Forall_forall. intros it Hit. simpl.
  destruct (relevant !! nodeid it) as [d|] eqn:E; simpl; [by eapply Hrel | done].
Qed.

(** X10. When every recorded duration of a current item is positive, every
    estimate is positive: the average that fills in for the missing ones is
    a mean of positive values, or [1]. *)
Theorem estimator_keeps_durations_positive (items : list Item) (durations : gmap string Q) :
  (∀ it d, it ∈ items → durations !! nodeid it = Some d → (0 < d)%Q) →
  Forall (λ p, (0 < p.2)%Q) (_get_items_with_durations items durations).
Proof. apply estimates_positive. Qed.

Lemma estimator_keeps_durations_positive_witness :
  (∀ it d, it ∈ [item "a.py::t"; item "b.py::t"] →
     ({["a.py::t" := 2%Q]} : gmap string Q) !! nodeid it = Some d → (0 < d)%Q) ∧
  Forall (λ p, (0 < p.2)%Q)
    (_get_items_with_durations [item "a.py::t"; item "b.py::t"] {["a.py::t" := 2%Q]}).
Proof.
  assert (∀ it d, it ∈ [item "a.py::t"; item "b.py::t"] →
     ({["a.py::t" := 2%Q]} : gmap string Q) !! nodeid it = Some d → (0 < d)%Q) as H.
  { intros it d Hit.
    repeat (apply elem_of_cons in Hit as [->|Hit]; [by intros [= <-]|]).
    by apply elem_of_nil in Hit. }
  split; [exact H|]. apply (estimator_keeps_durations_positive _ _ H).
Defined.

(** ** Insertion-ordered dicts *)

Lemma odict_update_present {V} (dflt : V) (g : V → V) (val : string → V) k keys :
  k ∈ keys → NoDup keys →
  odict_update dflt g k (odict_of val keys)
  = odict_of (λ f, if decide (f = k) then g (val f) else val f) keys.
Proof.
  unfold odict_of. induction keys as [|k' keys IH]; intros Hin Hnd; [by apply elem_of_nil in Hin|].
  apply NoDup_cons in Hnd as [Hnotin Hnd]. csimpl. case_decide as Hk.
  - subst k'. f_equal. apply list_fmap_ext. intros i f Hf.
    rewrite decide_False; [done|]. intros ->. by apply list_elem_of_lookup_2 in Hf.
  - f_equal. apply IH; [|done]. apply elem_of_cons in Hin as [->|?]; done.
Qed.

Lemma odict_update_absent {V} (dflt : V) (g : V → V) (val : string → V) k keys :
  k ∉ keys →
  odict_update dflt g k (odict_of val keys) = odict_of val keys ++ [(k, g dflt)].
Proof.
  unfold odict_of. induction keys as [|k' keys IH]; intros Hnotin; [done|].
  apply not_elem_of_cons in Hnotin as [Hne Hnotin]. csimpl.
  rewrite decide_False by done. by rewrite IH.
Qed.

Lemma odict_get_of {V} (dflt : V) (val : string → V) k keys :
  k ∈ keys → odict_get dflt k (odict_of val keys) = val k.
Proof.
  unfold odict_of. induction keys as [|k' keys IH]; intros Hin; [by apply elem_of_nil in Hin|].
  csimpl. case_decide as Hk; [by subst|].
  apply IH. apply elem_of_cons in Hin as [->|?]; done.
Qed.

Lemma odict_keys_of {V} (val : string → V) keys : odict_keys (odict_of val keys) = keys.
Proof.
  unfold odict_keys, odict_of. rewrite <- list_fmap_compose. apply list_fmap_id.
Qed.

(** ** Files in first-seen order *)

Lemma first_seen_snoc l f :
  first_seen (l ++ [f])
  = if decide (f ∈ first_seen l) then first_seen l else first_seen l ++ [f].
Proof. unfold first_seen. by rewrite foldl_snoc. Qed.

Lemma first_seen_elem_of l f : f ∈ first_seen l ↔ f ∈ l.
Proof.
  induction l as [|x l IH] using rev_ind; [done|].
  rewrite first_seen_snoc, elem_of_app, list_elem_of_singleton.
  case_decide as Hin.
  - rewrite IH. split; [auto|]. intros [?| ->]; [done|]. by apply IH.
  - by rewrite elem_of_app, list_elem_of_singleton, IH.
Qed.

Lemma first_seen_NoDup l : NoDup (first_seen l).
Proof.
  induction l as [|x l IH] using rev_ind; [constructor|].
  rewrite first_seen_snoc. case_decide as Hin; [done|].
  apply NoDup_app. split_and!; [done | | apply NoDup_singleton].
  intros f Hf ->%list_elem_of_singleton. done.
Qed.

(** ** The per-file loop of [group_tests] *)

Lemma filter_none {A} (P : A → Prop) `{!∀ x, Decision (P x)} (l : list A) :
  (∀ x, x ∈ l → ¬ P x) → filter P l = [].
Proof.
  induction l as [|x l IH]; intros Hnone; [done|].
  rewrite filter_cons, decide_False by (apply Hnone; left).
  apply IH. intros y Hy. apply Hnone. by right.
Qed.

Lemma file_of_component it file : file_of it = Ok file → file = file_component it.
Proof.
  unfold file_of, file_component.
  destruct (split_colons (nodeid it)) as [|a [|b [|??]]]; try done. by intros [= ->].
Qed.

Lemma file_members_snoc f items it :
  file_members f (items ++ [it])
  = if decide (file_component it = f) then file_members f items ++ [it]
    else file_members f items.
Proof.
  unfold file_members. rewrite filter_app, filter_cons, filter_nil.
  case_decide; [done | by rewrite app_nil_r].
Qed.

Lemma file_duration_snoc f (P : list (Item * Q)) it d :
  file_duration f (P ++ [(it, d)])
  = if decide (file_component it = f) then (file_duration f P + d)%Q
    else file_duration f P.
Proof.
  unfold file_duration. rewrite filter_app, filter_cons, filter_nil. simpl.
  case_decide; [|by rewrite app_nil_r].
  rewrite fmap_app. change ([(it, d)].*2) with [d].
  unfold py_sum. by rewrite foldl_snoc.
Qed.

Lemma by_file_step_inv (P : list (Item * Q)) st x st' :
  st = (odict_of (λ f, file_members f P.*1) (first_seen (file_component <$> P.*1)),
        odict_of (λ f, file_duration f P) (first_seen (file_component <$> P.*1))) →
  by_file_step st x = Ok st' →
  st' = (odict_of (λ f, file_members f (P ++ [x]).*1)
           (first_seen (file_component <$> (P ++ [x]).*1)),
         odict_of (λ f, file_duration f (P ++ [x]))
           (first_seen (file_component <$> (P ++ [x]).*1))).
Proof.
  intros -> Hstep. destruct x as [it d]. unfold by_file_step in Hstep.
  apply bind_Ok in Hstep as (file & Hfile%file_of_component & Hstep).
  injection Hstep as <-. subst file.
  rewrite !fmap_app. csimpl. rewrite first_seen_snoc.
  set (keys := first_seen (file_component <$> P.*1)).
  pose proof (first_seen_NoDup (file_component <$> P.*1)) as Hnd. fold keys in Hnd.
  case_decide as Hin.
  - rewrite !odict_update_present by done. unfold odict_of. f_equal.
    + apply list_fmap_ext. intros _ f _. rewrite file_members_snoc.
      by repeat case_decide.
    + apply list_fmap_ext. intros _ f _. rewrite file_duration_snoc.
      by repeat case_decide.
  - rewrite !odict_update_absent by done. unfold odict_of. rewrite !fmap_app. csimpl.
    rewrite file_members_snoc, file_duration_snoc, !decide_True by done.
    assert (file_members (file_component it) P.*1 = []) as ->.
    { apply filter_none. intros it' Hit' Heq. apply Hin. subst keys.
      apply first_seen_elem_of, list_elem_of_fmap. by exists it'. }
    assert (file_duration (file_component it) P = 0%Q) as ->.
    { unfold file_duration. rewrite filter_none; [done|].
      intros [it' d'] Hit' Heq. apply Hin. subst keys.
      apply first_seen_elem_of, list_elem_of_fmap. exists it'. split; [done|].
      apply list_elem_of_fmap. by exists (it', d'). }
    f_equal; f_equal.
    + apply list_fmap_ext. intros i f Hf. rewrite file_members_snoc.
      rewrite decide_False; [done|]. intros <-. by apply list_elem_of_lookup_2 in Hf.
    + apply list_fmap_ext. intros i f Hf. rewrite file_duration_snoc.
      rewrite decide_False; [done|]. intros <-. by apply list_elem_of_lookup_2 in Hf.
Qed.

(** When the per-file branch returns, its groups are those of the files in
    first-seen order. *)
Lemma group_by_file_Ok (items_with_durations : list (Item * Q)) gs :
  group_by_file items_with_durations = Ok gs →
  gs = groups_of_files items_with_durations.
Proof.
  unfold group_by_file. intros H. apply bind_Ok in H as ([ibf dbf] & Hloop & H).
  injection H as <-.
  pose proof (for_each_invariant by_file_step
    (λ P st, st = (odict_of (λ f, file_members f P.*1) (first_seen (file_component <$> P.*1)),
                   odict_of (λ f, file_duration f P) (first_seen (file_component <$> P.*1))))
    by_file_step_inv items_with_durations [] ([], []) (ibf, dbf) eq_refl Hloop) as Hinv.
  simpl in Hinv. injection Hinv as -> ->.
  rewrite odict_keys_of. unfold groups_of_files.
  apply list_fmap_ext. intros i f Hf. apply list_elem_of_lookup_2 in Hf.
  by rewrite !odict_get_of.
Qed.

Lemma _get_items_with_durations_fst items durations :
  (_get_items_with_durations items durations).*1 = items.
Proof.
  unfold _get_items_with_durations. rewrite <- list_fmap_compose. apply list_fmap_id.
Qed.

(** Sorting a list into the classes of a key, class by class, rearranges
    it. *)
Lemma concat_classes_Permutation {A} (key : A → string) (l : list A) (keys : list string) :
  NoDup keys →
  (∀ x, x ∈ l → key x ∈ keys) →
  concat ((λ f, filter (λ x, key x = f) l) <$> keys) ≡ₚ l.
Proof.
  intros Hnd. induction l as [|x l IH]; intros Hkeys.
  - apply reflexive_eq, concat_nil_Forall, Forall_fmap, Forall_forall. by intros.
  - assert (key x ∈ keys) as Hx by (apply Hkeys; left).
    transitivity (x :: concat ((λ f, filter (λ y, key y = f) l) <$> keys));
      [|apply Permutation_skip, IH; intros; apply Hkeys; by right].
    clear IH Hkeys. induction Hnd as [|k keys Hnotin Hnd IH]; [by apply elem_of_nil in Hx|].
    csimpl. rewrite filter_cons. apply elem_of_cons in Hx as [Hx|Hx].
    + rewrite decide_True by done. simpl. apply Permutation_skip, Permutation_app_head.
      apply reflexive_eq. f_equal. apply list_fmap_ext. intros i f Hf.
      rewrite filter_cons, decide_False; [done|].
      intros Heq. apply Hnotin. rewrite <- Hx, Heq. by eapply list_elem_of_lookup_2.
    + rewrite decide_False by (intros Heq; apply Hnotin; by rewrite <- Heq).
      rewrite (IH Hx). by rewrite Permutation_middle.
Qed.

(** ** What [group_tests] returns *)

Lemma first_seen_from (l : list string) : ∀ acc,
  foldl (λ acc f, if decide (f ∈ acc) then acc else acc ++ [f]) acc l
  = acc ++ filter (λ f, f ∉ acc) (first_seen l).
Proof.
  induction l as [|x l IH] using rev_ind; intros acc.
  - by rewrite app_nil_r.
  - rewrite foldl_snoc, first_seen_snoc, IH.
    destruct (decide (x ∈ first_seen l)) as [Hfs|Hfs].
    + rewrite decide_True; [done|]. apply elem_of_app.
      destruct (decide (x ∈ acc)); [by left|]. right. by apply list_elem_of_filter.
    + rewrite filter_app, filter_cons, filter_nil.
      destruct (decide (x ∈ acc)) as [Hacc|Hacc].
      * rewrite decide_True by (apply elem_of_app; by left).
        rewrite decide_False by (intros Hn; by apply Hn). by rewrite app_nil_r.
      * rewrite decide_False.
        -- rewrite decide_True by done. by rewrite app_assoc.
        -- intros [?|[_ ?]%list_elem_of_filter]%elem_of_app; done.
Qed.

(** The first element comes first, and is dropped from what follows. *)
Lemma first_seen_cons x l :
  first_seen (x :: l) = x :: filter (λ f, f ≠ x) (first_seen l).
Proof.
  unfold first_seen at 1. simpl. rewrite first_seen_from. simpl. f_equal.
  apply list_filter_iff. intros f. rewrite list_elem_of_singleton. done.
Qed.

Lemma group_tests_per_file_Ok group_type items durations gs :
  group_type ≠ "test"%string →
  group_tests group_type items durations = Ok gs →
  gs = groups_of_files (_get_items_with_durations items durations).
Proof.
  intros Hmode. unfold group_tests. rewrite decide_False by done. apply group_by_file_Ok.
Qed.

Lemma groups_of_files_tests (est : list (Item * Q)) :
  tests <$> groups_of_files est
  = (λ f, file_members f est.*1) <$> first_seen (file_component <$> est.*1).
Proof. unfold groups_of_files. by rewrite <- list_fmap_compose. Qed.

Lemma groups_of_files_flatten (est : list (Item * Q)) :
  _flatten (groups_of_files est) ≡ₚ est.*1.
Proof.
  unfold _flatten. rewrite groups_of_files_tests. unfold file_members.
  apply (concat_classes_Permutation file_component); [apply first_seen_NoDup|].
  intros it Hit. apply first_seen_elem_of. by apply list_elem_of_fmap_2.
Qed.

Lemma group_by_test_flatten (est : list (Item * Q)) :
  _flatten (group_by_test est) = est.*1.
Proof.
  unfold _flatten, group_by_test. induction est as [|[it d] est IH]; [done|].
  csimpl. by rewrite IH.
Qed.

Lemma group_tests_flatten group_type items durations gs :
  group_tests group_type items durations = Ok gs → _flatten gs ≡ₚ items.
Proof.
  destruct (decide (group_type = "test"%string)) as [->|Hmode].
  - unfold group_tests. rewrite decide_True by done. intros [= <-].
    by rewrite group_by_test_flatten, _get_items_with_durations_fst.
  - intros ->%group_tests_per_file_Ok; [|done].
    by rewrite groups_of_files_flatten, _get_items_with_durations_fst.
Qed.

Lemma groups_of_files_total (est : list (Item * Q)) :
  (py_sum (duration <$> groups_of_files est) == py_sum est.*2)%Q.
Proof.
  unfold groups_of_files. rewrite <- list_fmap_compose.
  transitivity (py_sum (concat
    ((λ f, (filter (λ p : Item * Q, file_component p.1 = f) est).*2)
       <$> first_seen (file_component <$> est.*1)))).
  - rewrite py_sum_concat.
    match goal with |- (py_sum ?x == py_sum ?y)%Q => assert (x = y) as -> end;
      [|reflexivity].
    apply list_eq. intros i. rewrite !list_lookup_fmap.
    by destruct (first_seen (file_component <$> est.*1) !! i).
  - apply py_sum_Permutation.
    transitivity (concat ((λ f, filter (λ p : Item * Q, file_component p.1 = f) est)
                            <$> first_seen (file_component <$> est.*1))).*2.
    { apply reflexive_eq. rewrite fmap_concat. f_equal.
      apply list_eq. intros i. rewrite !list_lookup_fmap.
      by destruct (first_seen (file_component <$> est.*1) !! i). }
    apply fmap_Permutation.
    apply (concat_classes_Permutation (λ p : Item * Q, file_component p.1));
      [apply first_seen_NoDup|].
    intros [it d] Hin. apply first_seen_elem_of, list_elem_of_fmap. exists it.
    split; [done|]. apply list_elem_of_fmap. by exists (it, d).
Qed.

(** X11. Per-item grouping (mode ["test"]) always returns: one group per
    item, in the order of the items, holding that item alone with its
    estimated duration; flattening the groups gives the items back. *)
Theorem group_tests_per_item (items : list Item) (durations : gmap string Q) :
  ∃ gs, group_tests "test" items durations = Ok gs ∧
    _flatten gs = items ∧
    length gs = length items ∧
    ∀ i it, items !! i = Some it →
      ∃ g, gs !! i = Some g ∧ tests g = [it] ∧
           _get_items_with_durations items durations !! i = Some (it, duration g).
Proof.
  eexists. split; [unfold group_tests; by rewrite decide_True|].
  split_and!.
  - by rewrite group_by_test_flatten, _get_items_with_durations_fst.
  - unfold group_by_test, _get_items_with_durations. by rewrite !length_fmap.
  - intros i it Hit. unfold group_by_test, _get_items_with_durations.
    rewrite !list_lookup_fmap, Hit. simpl. eauto.
Qed.

(** X12. Per-file grouping, when it returns, makes one group per distinct
    file component, the files in the order in which the items first show
    them; a group holds exactly the items of its file, in their original
    relative order, and no group is empty. *)
Theorem group_tests_per_file_groups (group_type : string)
    (items : list Item) (durations : gmap string Q) (gs : list InputTestGroup) :
  group_type ≠ "test"%string →
  group_tests group_type items durations = Ok gs →
  tests <$> gs
  = (λ f, filter (λ it, file_component it = f) items)
      <$> first_seen (file_component <$> items) ∧
  NoDup (first_seen (file_component <$> items)) ∧
  (∀ f, f ∈ first_seen (file_component <$> items) ↔
        ∃ it, it ∈ items ∧ file_component it = f) ∧
  Forall (λ g, tests g ≠ [] ∧ tests g `sublist_of` items) gs.
Proof.
  intros Hmode ->%group_tests_per_file_Ok; [|done].
  assert (tests <$> groups_of_files (_get_items_with_durations items durations)
          = (λ f, filter (λ it, file_component it = f) items)
              <$> first_seen (file_component <$> items)) as Htests.
  { by rewrite groups_of_files_tests, _get_items_with_durations_fst. }
  assert (∀ f, f ∈ first_seen (file_component <$> items) ↔
               ∃ it, it ∈ items ∧ file_component it = f) as Hfiles.
  { intros f. rewrite first_seen_elem_of, list_elem_of_fmap.
    split; [intros (it & -> & Hit) | intros (it & Hit & <-)]; by exists it. }
  split_and!; [done | apply first_seen_NoDup | done |].
  apply (Forall_fmap tests (λ l, l ≠ [] ∧ l `sublist_of` items)). rewrite Htests.
  apply Forall_fmap, Forall_forall. intros f Hf. simpl. split.
  - apply Hfiles in Hf as (it & Hit & Hf). intros Hnil.
    by eapply (filter_nil_not_elem_of _ _ it Hnil).
  - apply sublist_filter.
Qed.

Lemma group_tests_per_file_groups_witness :
  ∃ gs, "file"%string ≠ "test"%string ∧
    group_tests "file" [item "a.py::t1"; item "b.py::t"; item "a.py::t2"] ∅ = Ok gs ∧
    tests <$> gs = [[item "a.py::t1"; item "a.py::t2"]; [item "b.py::t"]].
Proof.
  eexists. split; [done|]. split; [vm_compute; reflexivity|].
  destruct (group_tests_per_file_groups "file"
              [item "a.py::t1"; item "b.py::t"; item "a.py::t2"] ∅ _
              ltac:(done) ltac:(vm_compute; reflexivity)) as [-> _].
  reflexivity.
Defined.

(** X13. Whatever the mode, when [group_tests] returns, every item is in
    exactly one group: the groups flattened hold the items, each as often as
    it was given. *)
Theorem group_tests_partitions_items (group_type : string)
    (items : list Item) (durations : gmap string Q) (gs : list InputTestGroup) :
  group_tests group_type items durations = Ok gs →
  _flatten gs ≡ₚ items.
Proof. apply group_tests_flatten. Qed.

Lemma group_tests_partitions_items_witness :
  ∃ gs, group_tests "file" [item "a.py::t1"; item "b.py::t"; item "a.py::t2"] ∅ = Ok gs ∧
    _flatten gs ≡ₚ [item "a.py::t1"; item "b.py::t"; item "a.py::t2"].
Proof.
  eexists. split; [vm_compute; reflexivity|].
  apply (group_tests_partitions_items "file" _ ∅). vm_compute; reflexivity.
Defined.

(** X14. Per-file grouping gives each group the sum of the estimated
    durations of its members, added in the order of the items, and the group
    durations add up to the sum of all estimates. *)
Theorem group_tests_per_file_durations (group_type : string)
    (items : list Item) (durations : gmap string Q) (gs : list InputTestGroup) :
  group_type ≠ "test"%string →
  group_tests group_type items durations = Ok gs →
  duration <$> gs
  = (λ f, py_sum (filter (λ p, file_component p.1 = f)
                         (_get_items_with_durations items durations)).*2)
      <$> first_seen (file_component <$> items) ∧
  (py_sum (duration <$> gs) == py_sum (_get_items_with_durations items durations).*2)%Q.
Proof.
  intros Hmode ->%group_tests_per_file_Ok; [|done]. split.
  - unfold groups_of_files. rewrite <- list_fmap_compose.
    by rewrite _get_items_with_durations_fst.
  - apply groups_of_files_total.
Qed.

Lemma group_tests_per_file_durations_witness :
  ∃ gs, "file"%string ≠ "test"%string ∧
    group_tests "file" [item "a.py::t1"; item "b.py::t"; item "a.py::t2"]
      {["a.py::t1" := 2%Q]} = Ok gs ∧
    (py_sum (duration <$> gs)
     == py_sum (_get_items_with_durations
                  [item "a.py::t1"; item "b.py::t"; item "a.py::t2"]
                  {["a.py::t1" := 2%Q]}).*2)%Q.
Proof.
  eexists. split; [done|]. split; [vm_compute; reflexivity|].
  apply (group_tests_per_file_durations "file"
           [item "a.py::t1"; item "b.py::t"; item "a.py::t2"] {["a.py::t1" := 2%Q]});
    [done | vm_compute; reflexivity].
Defined.

(** X15. Grouping followed by either strategy, for [N >= 1]: when both
    return, every item is selected by exactly one output -- the [selected]
    lists together hold the items, each as often as it was given -- and each
    output selects or deselects every item. *)
Theorem grouping_then_splitting_covers_items (group_type : string)
    (items : list Item) (durations : gmap string Q) (a : Algorithms) (N : Z)
    (gs : list InputTestGroup) (outs : list OutputTestGroup) :
  (1 ≤ N)%Z →
  group_tests group_type items durations = Ok gs →
  Algorithms_value a N gs = Ok outs →
  concat (selected <$> outs) ≡ₚ items ∧
  ∀ i o, outs !! i = Some o → selected o ++ deselected o ≡ₚ items.
Proof.
  intros HN Hgs%group_tests_flatten Houts.
  destruct (strategy_buckets a N gs outs HN Houts) as (buckets & _ & _ & Hout & Hcat & _).
  split.
  - rewrite (selected_of_buckets _ _ _ Hout), <- _flatten_concat, <- Hgs.
    by apply _flatten_Permutation.
  - intros i o Ho.
    destruct (Forall2_lookup_l _ _ _ _ _ Hout Ho) as (b & _ & _ & _ & Hb).
    by rewrite Hb.
Qed.

Lemma grouping_then_splitting_covers_items_witness :
  ∃ gs outs, (1 ≤ 2)%Z ∧
    group_tests "file" [item "a.py::t1"; item "b.py::t"; item "a.py::t2"] ∅ = Ok gs ∧
    Algorithms_value Alg_least_duration 2 gs = Ok outs ∧
    concat (selected <$> outs) ≡ₚ [item "a.py::t1"; item "b.py::t"; item "a.py::t2"] ∧
    ∀ i o, outs !! i = Some o →
      selected o ++ deselected o ≡ₚ [item "a.py::t1"; item "b.py::t"; item "a.py::t2"].
Proof.
  eexists. eexists. split; [lia|].
  split; [vm_compute; reflexivity|]. split; [vm_compute; reflexivity|].
  eapply (grouping_then_splitting_covers_items "file" _ ∅ Alg_least_duration 2);
    [lia | vm_compute; reflexivity | vm_compute; reflexivity].
Defined.
